(** * Dependency resolution of the Stardew Valley extension for Vortex

    A shallow embedding of the dependency-resolution code of the extension
    ([common.ts], [types/smapi-types.ts], [SMAPI_API.ts] and
    [events/modToggled.ts]) together with the properties its specification
    states about it, and of the archive tests of its installers
    ([installers/root-folder.ts], [installers/smapi-mods.ts],
    [installers/smapi.ts]) and the play time and backup action of its
    saved games.

    - JavaScript values that the code inspects dynamically (truthiness,
      [=== true], case-insensitive key lookup) are modelled by [value].
    - [String.prototype.toLowerCase] follows the case mapping of the
      Unicode tables the engine ships: it is a parameter ([CaseMapping]) of
      the definitions that call it, and the properties hold for every such
      mapping.  The examples are evaluated on ASCII strings, with the
      mapping of the ASCII letters.
    - A read [o[k]] whose key comes from data gives the own property named
      [k], else the member of that name inherited from [Object.prototype].
    - Data the code types with an interface is modelled by a record with one
      optional field per optional member.
    - [async] functions are written in a small monad [M] that threads a
      [World] (the arrays the code shares by reference and the trace of
      observable events) and carries exceptions / promise rejections.
    - The host application and the network are an oracle record [Api]. *)

From stdpp Require Import base strings list gmap.
From Stdlib Require Import ZArith Ascii String DecimalString.

Set Warnings "-register-all".

(** ** JavaScript values *)

(** [VInherited k] is the member [k] that a value inherits from
    [Object.prototype]: a function, or for [__proto__] the prototype
    itself.  It is an object without own enumerable keys. *)
Inductive value : Type :=
| VUndefined
| VNull
| VBool (b : bool)
| VNum (n : Z)
| VStr (s : string)
| VArr (items : list value)
| VObj (fields : list (string * value))
| VInherited (k : string).

(** [!!v]: the values the code tests are never [NaN]. *)
Definition truthy (v : value) : bool :=
  match v with
  | VUndefined | VNull => false
  | VBool b => b
  | VNum n => negb (n =? 0)%Z
  | VStr s => negb (String.eqb s "")
  | VArr _ | VObj _ | VInherited _ => true
  end.

(** [a || b] *)
Definition js_or (a b : value) : value := if truthy a then a else b.

(** [v === true] *)
Definition is_true (v : value) : bool :=
  match v with VBool true => true | _ => false end.

(** Truthiness of an optional string ([undefined] and [''] are falsy). *)
Definition truthy_str (s : option string) : bool :=
  match s with Some s => negb (String.eqb s "") | None => false end.

(** [String.prototype.toLowerCase]: the lower-case form of a string under
    the engine's case mapping. *)
Class CaseMapping := { toLowerCase : string -> string }.

(** The case mapping on ASCII strings: the letters [A] to [Z] are folded. *)
Definition lower_ascii (c : ascii) : ascii :=
  let n := nat_of_ascii c in
  if (65 <=? n)%nat && (n <=? 90)%nat then ascii_of_nat (n + 32) else c.

Fixpoint ascii_toLowerCase (s : string) : string :=
  match s with
  | EmptyString => EmptyString
  | String c r => String (lower_ascii c) (ascii_toLowerCase r)
  end.

(** [s.split(sep)] for a one-character separator; [cur] is the segment read
    so far. *)
Fixpoint split_from (sep : ascii) (cur s : string) : list string :=
  match s with
  | EmptyString => [cur]
  | String c r =>
      if Ascii.eqb c sep then cur :: split_from sep "" r
      else split_from sep (cur +:+ String c "") r
  end.

Definition split (sep : ascii) (s : string) : list string := split_from sep "" s.

(** [l.join(sep)] *)
Definition join (sep : string) (l : list string) : string := String.concat sep l.

(** The names of the members of [Object.prototype], which every object
    and every boxed primitive inherits. *)
Definition Object_prototype : list string :=
  ["constructor"; "__defineGetter__"; "__defineSetter__"; "hasOwnProperty";
   "__lookupGetter__"; "__lookupSetter__"; "isPrototypeOf"; "propertyIsEnumerable";
   "toString"; "valueOf"; "__proto__"; "toLocaleString"].

Definition is_inherited (k : string) : bool := existsb (String.eqb k) Object_prototype.

(** What a read of [k] gives where no own property is named [k]. *)
Definition inherited_member (k : string) : value :=
  if is_inherited k then VInherited k else VUndefined.

(** [o[k]] on an object given as its own entries in [Object.keys] order: the
    own property named [k] (whatever its value), else the inherited
    member. *)
Fixpoint get_field (fields : list (string * value)) (k : string) : value :=
  match fields with
  | [] => inherited_member k
  | (k', v) :: rest => if String.eqb k' k then v else get_field rest k
  end.

(** [v[k]].  For a value that is no object, [k] is no own property of a
    string or an array (an index, [length]) and no method of the prototype of
    its type: the keys the extension reads on such values are manifest
    member names.  The reads of [undefined] and [null], which throw, are
    [member] below. *)
Definition get_prop (v : value) (k : string) : value :=
  match v with
  | VObj fields => get_field fields k
  | VUndefined | VNull => VUndefined
  | _ => inherited_member k
  end.

(** [Object.keys(v)] as far as the code uses it: the result is only searched
    for a manifest member name, which the index keys of a string or an array
    never match. *)
Definition object_keys (v : value) : list string :=
  match v with
  | VObj fields => map fst fields
  | _ => []
  end.

(** ** Effects *)

Definition loc := positive.

(** Outcome of a call: a returned value, or a thrown error / rejected
    promise (the error's message). *)
Inductive outcome (A : Type) : Type :=
| Ret (a : A)
| Throw (e : string).
Arguments Ret {A} a.
Arguments Throw {A} e.

Definition is_Ret {A} (o : outcome A) : bool :=
  match o with Ret _ => true | Throw _ => false end.

(** ** Data model ([types/smapi-types.ts] and the host's [types.IMod]) *)

(** One entry of a manifest's [Dependencies]:
    [{ UniqueID: string, MinimumVersion?: string, isRequired?: boolean }].
    The objects come from manifest files, so [isRequired] holds whatever the
    author wrote. *)
Record Dependency := mkDependency {
  dep_UniqueID : option string;
  dep_isRequired : value;
  dep_MinimumVersion : option string;
}.

Record ContentPackFor := mkContentPackFor {
  cpf_UniqueID : option string;
}.

Record ModUpdater := mkModUpdater {
  mu_Repository : option string;
  mu_User : option string;
  mu_Directory : option string;
  mu_ModFolder : option string;
}.

(** [ISMAPIManifest = Partial<ISMAPIManifestBase>], for a manifest whose
    members have the types of the interface and whose keys are spelled as the
    interface spells them.  [Dependencies] is an array object: the manifest
    holds a reference to it. *)
Record ISMAPIManifest := mkManifest {
  m_Name : option string;
  m_Author : option string;
  m_Version : option string;
  m_Description : option string;
  m_UniqueID : option string;
  m_EntryDll : option string;
  m_MinimumApiVersion : option string;
  m_UpdateKeys : option (list string);
  m_ContentPackFor : option ContentPackFor;
  m_Dependencies : option loc;
  m_ModUpdater : option ModUpdater;
}.

(** An instance of [SMAPIManifestClass]; [Dependencies] is never missing. *)
Record SMAPIManifestClass := mkManifestClass {
  c_Name : option string;
  c_Author : option string;
  c_Version : option string;
  c_Description : option string;
  c_UniqueID : option string;
  c_EntryDll : option string;
  c_MinimumApiVersion : option string;
  c_UpdateKeys : option (list string);
  c_ContentPackFor : option ContentPackFor;
  c_Dependencies : loc;
  c_ModUpdater : option ModUpdater;
}.

Record IAPIModIdentity := mkIdentity {
  ident_id : value;
  ident_updateKeys : option (list string);
  ident_installedVersion : option string;
}.

Record IAPIPostRequest := mkRequest {
  req_mods : list IAPIModIdentity;
  req_apiVersion : string;
  req_gameVersion : string;
  req_platform : string;
  req_includeExtendedMetadata : option bool;
}.

Record IAPIMain := mkMain {
  main_version : string;
  main_url : string;
}.

Record IAPIMetadata := mkMetadata {
  meta_name : string;
  meta_main : option IAPIMain;
}.

Record IAPIMod := mkAPIMod {
  res_id : string;
  res_metadata : option IAPIMetadata;
}.

(** What [res.data] holds once the request resolved: the documented array,
    or anything else the server sent. *)
Inductive ResponseData :=
| DataArray (items : list IAPIMod)
| DataOther.

Record Repo := mkRepo {
  repo_repository : string;
  repo_gameId : string;
  repo_modId : option string;
  repo_fileId : option string;
}.

(** [IModReferencePlus] *)
Record Reference := mkReference {
  ref_id : option string;
  ref_versionMatch : option string;
  ref_description : option string;
  ref_idHint : option string;
  ref_instructions : option string;
  ref_version : option string;
  ref_fileExpression : option string;
  ref_repo : option Repo;
  ref_archiveId : option string;
}.

Definition empty_reference : Reference :=
  mkReference None None None None None None None None None.

Record DownloadHint := mkDownloadHint {
  hint_mode : string;
  hint_url : string;
}.

Record Extra := mkExtra {
  extra_required : value;
}.

(** [IModRulePlusType] *)
Record Rule := mkRule {
  rule_type : option string;
  rule_reference : Reference;
  rule_downloadHint : option DownloadHint;
  rule_extra : option Extra;
}.

Record ModData := mkModData {
  md_id : string;
  md_version : option string;
}.

Record SmapiID := mkSmapiID {
  sid_id : string;
}.

Record Attributes := mkAttributes {
  attr_smapiManifests : option (list (string * ISMAPIManifest));
  attr_modData : option (list ModData);
  attr_smapiIDs : option (list SmapiID);
  attr_modId : option string;
  attr_fileId : option string;
  attr_source : option string;
}.

(** [types.IMod] *)
Record IMod := mkMod {
  mod_id : string;
  mod_archiveId : option string;
  mod_attributes : option Attributes;
  mod_rules : option (list Rule);
}.

Record IProfile := mkProfile {
  profile_gameId : string;
}.

(** The part of the host state the extension reads: the profiles and
    [state.persistent.mods[GAME_ID]], objects given by their entries in
    [Object.values] order. *)
Record State := mkState {
  st_profiles : list (string * IProfile);
  st_mods : option (list (string * IMod));
}.

(** Actions the extension dispatches to the host store. *)
Inductive Action :=
| removeModRule (gameId modId : string) (r : Rule)
| addModRule (gameId modId : string) (r : Rule).

(** Observable events, in the order they happen. *)
Inductive Event :=
| EvLog (level message : string)
| EvConsoleLog (label : string)
| EvPost (url : string) (data : IAPIPostRequest)
| EvBatchDispatch (actions : list Action).

(** The world a call runs in: the [Dependencies] arrays, by reference, and
    the events so far. *)
Record World := mkWorld {
  w_heap : gmap loc (list Dependency);
  w_trace : list Event;
}.

(** What [game.getInstalledVersion?.(discovery)] does. *)
Inductive InstalledVersion :=
| VersionMissing
| VersionResolves (v : string)
| VersionRejects (e : string).

(** What [axios.post] does with a request. *)
Inductive PostResult :=
| PostResolves (data : ResponseData)
| PostRejects (e : string).

(** [types.IExtensionApi] and what the code reaches besides it:
    [api.getState()]; [util.getGame(GAME_ID)], which is [undefined] or a game
    with its [getInstalledVersion]; [process.platform]; [axios.post]; and
    [util.renderModName]. *)
Record Api := mkApi {
  api_getState : State;
  api_getGame : option InstalledVersion;
  api_platform : string;
  api_post : string -> IAPIPostRequest -> PostResult;
  api_renderModName : IMod -> string;
}.

(** ** The monad of effectful calls *)

Definition M (A : Type) : Type := World -> outcome A * World.

#[export] Instance M_ret : MRet M := fun A a w => (Ret a, w).

#[export] Instance M_bind : MBind M := fun A B f m w =>
  match m w with
  | (Ret a, w') => f a w'
  | (Throw e, w') => (Throw e, w')
  end.

Definition throw {A} (e : string) : M A := fun w => (Throw e, w).

(** [try { body } catch (err) { handler }] *)
Definition try_catch {A} (body : M A) (handler : string -> M A) : M A :=
  fun w =>
    match body w with
    | (Ret a, w') => (Ret a, w')
    | (Throw e, w') => handler e w'
    end.

Definition emit (e : Event) : M unit :=
  fun w => (Ret tt, mkWorld (w_heap w) (w_trace w ++ [e])).

(** [log(level, message, ...)] of vortex-api *)
Definition log (level message : string) : M unit := emit (EvLog level message).

(** A new array object. *)
Definition new_array (items : list Dependency) : M loc :=
  fun w =>
    let p := fresh (dom (w_heap w)) in
    (Ret p, mkWorld (<[p := items]> (w_heap w)) (w_trace w)).

Definition read_array (p : loc) : M (list Dependency) :=
  fun w => (Ret (default [] (w_heap w !! p)), w).

(** [array.push(d)] *)
Definition array_push (p : loc) (d : Dependency) : M unit :=
  fun w => (Ret tt, mkWorld (alter (fun items => items ++ [d]) p (w_heap w)) (w_trace w)).

(** [l.find(f)] for a callback that may throw. *)
Fixpoint find_m {A} (f : A -> M bool) (l : list A) : M (option A) :=
  match l with
  | [] => mret None
  | x :: rest => b ← f x; if b : bool then mret (Some x) else find_m f rest
  end.

(** [l.filter(f)] for a callback that may throw. *)
Fixpoint filter_m {A} (f : A -> M bool) (l : list A) : M (list A) :=
  match l with
  | [] => mret []
  | x :: rest => b ← f x; keep ← filter_m f rest; mret (if b : bool then x :: keep else keep)
  end.

(** [v.k] : reading a member of [undefined] or [null] throws. *)
Definition member (v : value) (k : string) : M value :=
  match v with
  | VUndefined | VNull => throw "TypeError: cannot read properties of undefined"
  | _ => mret (get_prop v k)
  end.

(** [v.toLowerCase()] : only strings have the method. *)
Definition call_toLowerCase {mapping : CaseMapping} (v : value) : M string :=
  match v with
  | VStr s => mret (toLowerCase s)
  | VUndefined | VNull => throw "TypeError: cannot read properties of undefined"
  | _ => throw "TypeError: toLowerCase is not a function"
  end.

Definition value_of_string (s : option string) : value :=
  match s with Some s => VStr s | None => VUndefined end.

(** ** [common.ts] *)

Definition GAME_ID : string := "stardewvalley".

Definition key_matches {mapping : CaseMapping} (key k : string) : bool :=
  String.eqb (toLowerCase k) (toLowerCase key).

Definition getManifestValue {mapping : CaseMapping} (manifest : value) (key : string) : M value :=
  if negb (truthy manifest) then mret VUndefined
  else if truthy (get_prop manifest key) then mret (get_prop manifest key)
  else
    match List.find (key_matches key) (object_keys manifest) with
    | Some keyMatch =>
        if negb (String.eqb keyMatch "") then mret (get_prop manifest keyMatch)
        else _ ← log "warn" "Could not find key on SMAPI mod manifest"; mret VUndefined
    | None => _ ← log "warn" "Could not find key on SMAPI mod manifest"; mret VUndefined
    end.

(** [getManifestValue] as the typed manifests below are read.  A typed
    manifest stands for an object whose keys are member names of the
    interface, each spelled as the interface spells it and held at most once,
    with a key for a member exactly where the member is set.  On such an
    object a member that is set is returned, at once or after the search
    found its own key, and a member that is not set is reported (both are
    proved of [getManifestValue] below).  An object that keeps a key
    whose value is [undefined] reads the same but is not reported: the
    warnings are the one thing in which the typed reading differs from it;
    the properties of [modToggled] below are about the arrays and the
    dispatched batches. *)
Definition getManifestField {A} (key : string) (field : option A) : M (option A) :=
  match field with
  | Some v => mret (Some v)
  | None => _ ← log "warn" "Could not find key on SMAPI mod manifest"; mret None
  end.

(** ** [types/smapi-types.ts]: the constructor of [SMAPIManifestClass] *)

Definition new_SMAPIManifestClass (raw : ISMAPIManifest) : M SMAPIManifestClass :=
  Name ← getManifestField "Name" (m_Name raw);
  Author ← getManifestField "Author" (m_Author raw);
  Version ← getManifestField "Version" (m_Version raw);
  Description ← getManifestField "Description" (m_Description raw);
  UniqueID ← getManifestField "UniqueID" (m_UniqueID raw);
  EntryDll ← getManifestField "EntryDll" (m_EntryDll raw);
  MinimumApiVersion ← getManifestField "MinimumApiVersion" (m_MinimumApiVersion raw);
  UpdateKeys ← getManifestField "UpdateKeys" (m_UpdateKeys raw);
  ContentPackFor ← getManifestField "ContentPackFor" (m_ContentPackFor raw);
  stored ← getManifestField "Dependencies" (m_Dependencies raw);
  Dependencies ← match stored with Some p => mret p | None => new_array [] end;
  ModUpdater ← getManifestField "ModUpdater" (m_ModUpdater raw);
  mret (mkManifestClass Name Author Version Description UniqueID EntryDll
          MinimumApiVersion UpdateKeys ContentPackFor Dependencies ModUpdater).

(** ** [SMAPI_API.ts] *)

Definition SMAPI_API_VERSION : string := "v3.0".

Definition api_url : string := "https://smapi.io/api/" +:+ SMAPI_API_VERSION +:+ "/mods".

Definition getGameVersion (api : Api) : M string :=
  match api_getGame api with
  | None => throw "Could not get game details for Stardew Valley."
  | Some game =>
      gameVersion ← match game with
                    | VersionMissing => mret None
                    | VersionResolves v => mret (Some v)
                    | VersionRejects e => throw e
                    end;
      if negb (truthy_str gameVersion)
      then throw "Could not get the game version for Stardew Valley."
      else mret (join "." (take 3 (split "." (default "" gameVersion))))
  end.

Definition getAllMods (api : Api) : list (string * IMod) :=
  default [] (st_mods (api_getState api)).

Definition platform_tag (platform : string) : string :=
  if String.eqb platform "win32" then "Windows"
  else if String.eqb platform "linux" then "Linux"
  else "Mac".

Definition sendQuery (api : Api) (mods : list IAPIModIdentity) (includeMeta : option bool)
  : M ResponseData :=
  try_catch
    (gameVersion ← getGameVersion api;
     let platform := platform_tag (api_platform api) in
     let data := mkRequest mods "3.0" gameVersion platform includeMeta in
     _ ← emit (EvConsoleLog "SMAPI API request");
     _ ← emit (EvPost api_url data);
     match api_post api api_url data with
     | PostRejects e => throw e
     | PostResolves res_data =>
         _ ← emit (EvConsoleLog "SMAPI API response");
         mret res_data
     end)
    (fun err =>
       _ ← log "error" "Error fetching data from the SMAPI API";
       mret (DataArray [])).

Definition mod_attr {A} (f : Attributes -> option A) (m : IMod) : option A :=
  a ← mod_attributes m; f a.

Definition update_keys_of (cur : IMod) : list string :=
  if truthy_str (mod_attr attr_modId cur)
     && bool_decide (mod_attr attr_source cur = Some "nexus")
  then ["nexus:" +:+ default "" (mod_attr attr_modId cur)]
  else [].

(** The batch [fetchModInfo] builds with [Object.values(modsToCheck).reduce]. *)
Definition mod_identities (modsToCheck : list (string * IMod)) : list IAPIModIdentity :=
  fold_left
    (fun prev cur =>
       match mod_attr attr_modData cur with
       | None | Some [] => prev
       | Some ids =>
           prev ++ map (fun m => mkIdentity (VStr (md_id m)) (Some (update_keys_of cur))
                                    (md_version m)) ids
       end)
    (map snd modsToCheck) [].

Definition fetchModInfo (api : Api) (includeMeta : bool)
    (modsToCheck : option (list (string * IMod))) : M ResponseData :=
  let modsToCheck := match modsToCheck with Some m => m | None => getAllMods api end in
  let mods := mod_identities modsToCheck in
  match mods with
  | [] => mret (DataArray [])
  | _ => sendQuery api mods (Some includeMeta)
  end.

(** [obj[k] = v] on the entries of an object. *)
Fixpoint set_field (fields : list (string * value)) (k : string) (v : value)
  : list (string * value) :=
  match fields with
  | [] => [(k, v)]
  | (k', v') :: rest =>
      if String.eqb k' k then (k', v) :: rest else (k', v') :: set_field rest k v
  end.

Definition normaliseDependencies {mapping : CaseMapping} (input : value) : M value :=
  UniqueID ← getManifestValue input "UniqueID";
  MinimumVersion ← getManifestValue input "MinimumVersion";
  isRequired ← (v ← getManifestValue input "isRequired"; mret (js_or v (VBool false)));
  if negb (truthy UniqueID) then mret VUndefined
  else
    let result := [("UniqueID", UniqueID); ("isRequired", isRequired)] in
    let result :=
      if negb (truthy MinimumVersion)
      then set_field result "MinimumVersion" MinimumVersion
      else result in
    mret (VObj result).

Definition nexus_mods_url : string := "https://nexusmods.com/" +:+ GAME_ID +:+ "/mods/".

(** [s || ''] *)
Definition or_empty (s : option string) : string :=
  if truthy_str s then default "" s else "".

(** [mod.attributes.smapiIDs]: throws when the mod has no attributes. *)
Definition smapiIDs_of (m : IMod) : M (option (list SmapiID)) :=
  match mod_attributes m with
  | None => throw "TypeError: cannot read properties of undefined"
  | Some a => mret (attr_smapiIDs a)
  end.

(** The callback of [smapiMods.find] in [getModDependencies]. *)
Definition declares_id {mapping : CaseMapping} (dependency : value) (m : IMod) : M bool :=
  ids ← smapiIDs_of m;
  match ids with
  | None => throw "TypeError: cannot read properties of undefined"
  | Some ids =>
      found ← find_m (fun data =>
                 let l := toLowerCase (sid_id data) in
                 u ← member dependency "UniqueID";
                 r ← call_toLowerCase u;
                 mret (String.eqb l r)) ids;
      mret (bool_decide (is_Some found))
  end.

Definition installed_rule (api : Api) (matchingMod : IMod) (dependency : value) : Rule :=
  mkRule None
    (mkReference (Some (mod_id matchingMod)) None
       (Some (api_renderModName api matchingMod)) None None None None
       (Some (mkRepo "nexus" GAME_ID (mod_attr attr_modId matchingMod)
                (mod_attr attr_fileId matchingMod)))
       (mod_archiveId matchingMod))
    (Some (mkDownloadHint "browse"
             (nexus_mods_url +:+ or_empty (mod_attr attr_modId matchingMod))))
    (Some (mkExtra (js_or (get_prop dependency "isRequired") (VBool false)))).

(** The loop "Check for existing mods as dependencies". *)
Fixpoint check_existing {mapping : CaseMapping} (api : Api) (smapiMods : list IMod) (dependencies : list value)
    (rules : list Rule) (unfulfilled : list value) : M (list Rule * list value) :=
  match dependencies with
  | [] => mret (rules, unfulfilled)
  | dependency :: rest =>
      matchingMod ← find_m (declares_id dependency) smapiMods;
      match matchingMod with
      | None => check_existing api smapiMods rest rules (unfulfilled ++ [dependency])
      | Some matchingMod =>
          check_existing api smapiMods rest
            (rules ++ [installed_rule api matchingMod dependency]) unfulfilled
      end
  end.

Definition catalog_url (data : IAPIMod) : string :=
  let url := main_url <$> (metadata ← res_metadata data; meta_main metadata) in
  if truthy_str url then default "" url else nexus_mods_url.

Definition catalog_name (data : IAPIMod) : string :=
  let name := meta_name <$> res_metadata data in
  if truthy_str name then default "" name else res_id data.

(** [response.find(m => m.id.toLowerCase() === id.toLowerCase())] *)
Definition find_response {mapping : CaseMapping} (response : ResponseData) (id : M value) : M (option IAPIMod) :=
  match response with
  | DataArray items =>
      find_m (fun m =>
                let l := toLowerCase (res_id m) in
                u ← id;
                r ← call_toLowerCase u;
                mret (String.eqb l r)) items
  | DataOther => throw "TypeError: find is not a function"
  end.

(** The array returned by [rules.concat.apply([], unfulfilledRules)] holds the
    elements of [unfulfilledRules], of which some are [undefined]. *)
Definition getModDependencies {mapping : CaseMapping} (api : Api) (manifest : value) : M (list (option Rule)) :=
  contentPackFor ← (v ← getManifestValue manifest "ContentPackFor"; normaliseDependencies v);
  declared ← getManifestValue manifest "Dependencies";
  dependencies ← match js_or declared (VArr []) with
                 | VArr items => mapM normaliseDependencies items
                 | _ => throw "TypeError: map is not a function"
                 end;
  if negb (truthy contentPackFor) && bool_decide (dependencies = []) then mret []
  else
    let dependencies :=
      if truthy contentPackFor
      then dependencies ++ [VObj [("UniqueID", get_prop contentPackFor "UniqueID");
                                  ("isRequired", VBool true)]]
      else dependencies in
    mods ← match st_mods (api_getState api) with
           | Some mods => mret mods
           | None => throw "TypeError: cannot convert undefined to object"
           end;
    smapiMods ← filter_m (fun m => ids ← smapiIDs_of m; mret (bool_decide (is_Some ids)))
                  (map snd mods);
    '(rules, unfulfilled) ← check_existing api smapiMods dependencies [] [];
    modsToSend ← mapM (fun u => id ← member u "UniqueID"; mret (mkIdentity id None None))
                   unfulfilled;
    try_catch
      (smapiRequest ← sendQuery api modsToSend (Some true);
       unfulfilledRules ←
         mapM (fun rule =>
                 data ← find_response smapiRequest (member rule "UniqueID");
                 match data with
                 | None => mret None
                 | Some data =>
                     mret (Some (mkRule None
                       (mkReference None None (Some (catalog_name data)) (Some (res_id data))
                          (Some "Download the required version.") None None None None)
                       (Some (mkDownloadHint "browse" (catalog_url data)))
                       (Some (mkExtra (js_or (get_prop rule "isRequired") (VBool false))))))
                 end) unfulfilled;
       mret unfulfilledRules)
      (fun err =>
         _ ← log "error" "There was an error fetching dependency data for SMAPI mods";
         mret (map Some rules)).

(** ** [events/modToggled.ts] *)

(** The own property [k] of an object used as a dictionary, given by its
    own entries. *)
Fixpoint entry {A} (k : string) (entries : list (string * A)) : option A :=
  match entries with
  | [] => None
  | (k', v) :: rest => if String.eqb k' k then Some v else entry k rest
  end.

(** [set.add(x)] and [new Set(l)]: a [Set] keeps its members in insertion
    order and compares strings exactly. *)
Definition Set_add (s : list string) (x : string) : list string :=
  if bool_decide (x ∈ s) then s else s ++ [x].

Definition new_Set (l : list string) : list string := fold_left Set_add l [].

(** [d.isRequired === true ? 'requires' : 'recommends'] *)
Definition rule_kind (d : Dependency) : string :=
  if is_true (dep_isRequired d) then "requires" else "recommends".

(** [d.MinimumVersion ? `${d.MinimumVersion}^` : '*'] *)
Definition version_constraint (d : Dependency) : string :=
  if truthy_str (dep_MinimumVersion d)
  then default "" (dep_MinimumVersion d) +:+ "^"
  else "*".

Definition local_rule (depToFind : Dependency) (found : IMod) : Rule :=
  mkRule (Some (rule_kind depToFind))
    (mkReference (Some (mod_id found)) (Some (version_constraint depToFind))
       (dep_UniqueID depToFind) None None None None None None)
    None None.

Definition remote_rule (d : Dependency) (smapiInfo : IAPIMod) : Rule :=
  mkRule (Some (rule_kind d))
    (mkReference None None (Some (res_id smapiInfo)) (Some (res_id smapiInfo))
       (Some "Download the required version.") None None None None)
    (Some (mkDownloadHint "browse" (catalog_url smapiInfo)))
    (Some (mkExtra (js_or (dep_isRequired d) (VBool false)))).

Definition unresolved_rule (d : Dependency) : Rule :=
  mkRule (Some (rule_kind d))
    (mkReference None None None None None (Some (version_constraint d))
       (dep_UniqueID d) None None)
    None None.

(** An inherited member ([smapiManifests.toString] and the like) where a
    manifest is expected: it is truthy and has none of a manifest's
    members. *)
Definition inherited_manifest : ISMAPIManifest :=
  mkManifest None None None None None None None None None None None.

(** [m.attributes?.smapiManifests?.[depName]]: the manifest stored under
    [depName], else the member of that name that [smapiManifests] inherits
    from [Object.prototype]. *)
Definition manifest_of (depName : string) (m : IMod) : option ISMAPIManifest :=
  manifests ← mod_attr attr_smapiManifests m;
  match entry depName manifests with
  | Some manifest => Some manifest
  | None => if is_inherited depName then Some inherited_manifest else None
  end.

Definition filteredDependencies (dependencies : list Dependency) : list Dependency :=
  let depIds :=
    new_Set (omap dep_UniqueID
               (List.filter (fun d => truthy_str (dep_UniqueID d)) dependencies)) in
  fold_left
    (fun prev cur =>
       match List.find (fun d => bool_decide (dep_UniqueID d = Some cur)) dependencies with
       | Some found => prev ++ [found]
       | None => prev
       end)
    depIds [].

Section Resolver.

(** The two functions of the npm package [semver] the resolver calls; the
    package is not part of the repository.  [semver_coerce] gives the text
    of the coerced version, or [None] where [semver.coerce] returns
    [null]. *)
Variable semver_coerce : string -> option string.
Variable semver_satisfies : string -> string -> bool.

(** The range the resolver writes: [`${semver.coerce(version)}^`]. *)
Definition version_range (version : string) : string :=
  default "null" (semver_coerce version) +:+ "^".

(** The callback of [candidates.find]. *)
Definition accepts (depToFind : Dependency) (depName : string) (m : IMod) : bool :=
  let version := dep_MinimumVersion depToFind in
  if negb (truthy_str version) then true
  else
    let modDepVersion := manifest ← manifest_of depName m; m_Version manifest in
    if negb (truthy_str modDepVersion) then false
    else semver_satisfies (default "" modDepVersion) (version_range (default "" version)).

(** The installed mod a dependency is matched to, if any. *)
Definition local_match (modArray : list IMod) (depToFind : Dependency) : option IMod :=
  let depName := or_empty (dep_UniqueID depToFind) in
  let candidates :=
    List.filter (fun m => bool_decide (is_Some (manifest_of depName m))) modArray in
  match candidates with
  | [] => None
  | _ => List.find (accepts depToFind depName) candidates
  end.

(** The loop "Iterate over all dependency IDs and try to map it to a
    mod". *)
Fixpoint match_installed (modArray : list IMod) (deps : list Dependency)
    (smapiRules : list Rule) (missingDependencies : list Dependency)
  : list Rule * list Dependency :=
  match deps with
  | [] => (smapiRules, missingDependencies)
  | depToFind :: rest =>
      match local_match modArray depToFind with
      | Some found =>
          match_installed modArray rest (smapiRules ++ [local_rule depToFind found])
            missingDependencies
      | None =>
          match_installed modArray rest smapiRules (missingDependencies ++ [depToFind])
      end
  end.

Definition mapDependencies {mapping : CaseMapping} (api : Api) (mods : list (string * IMod))
    (dependencies : list Dependency) : M (list Rule) :=
  let modArray := map snd mods in
  let '(smapiRules, missingDependencies) :=
    match_installed modArray (filteredDependencies dependencies) [] [] in
  try_catch
    (let missingMods :=
       map (fun d => mkIdentity (value_of_string (dep_UniqueID d)) None None)
         missingDependencies in
     smapiData ← sendQuery api missingMods (Some true);
     rules ← mapM (fun d =>
                smapiInfo ← find_response smapiData
                              (mret (value_of_string (dep_UniqueID d)));
                match smapiInfo with
                | Some smapiInfo => mret (remote_rule d smapiInfo)
                | None => mret (unresolved_rule d)
                end) missingDependencies;
     mret (smapiRules ++ rules))
    (fun err =>
       _ ← log "error" "Could not get dependency data from SMAPI";
       mret (map unresolved_rule missingDependencies)).

(** [existingRules.filter(r => mappedRules.find(mr =>
      mr.reference.id === r.reference?.fileExpression))] *)
Definition rulesToRemove (existingRules mappedRules : list Rule) : list Rule :=
  List.filter
    (fun r =>
       bool_decide (is_Some
         (List.find (fun mr => bool_decide (ref_id (rule_reference mr)
                                            = ref_fileExpression (rule_reference r)))
            mappedRules)))
    existingRules.

(** One turn of the loop over the manifests of the toggled mod. *)
Definition reconcile_manifest {mapping : CaseMapping} (api : Api) (mods : list (string * IMod)) (mod_ : IMod)
    (manifest : ISMAPIManifest) : M unit :=
  parsed ← new_SMAPIManifestClass manifest;
  let dependencies := c_Dependencies parsed in
  _ ← match c_ContentPackFor parsed with
      | Some contentPackFor =>
          array_push dependencies
            (mkDependency (cpf_UniqueID contentPackFor) (VBool true) None)
      | None => mret tt
      end;
  declared ← read_array dependencies;
  mappedRules ← mapDependencies api mods declared;
  match mappedRules with
  | [] => mret tt
  | _ =>
      let existingRules := default [] (mod_rules mod_) in
      let toRemove := rulesToRemove existingRules mappedRules in
      _ ← emit (EvBatchDispatch (map (removeModRule GAME_ID (mod_id mod_)) toRemove));
      emit (EvBatchDispatch (map (addModRule GAME_ID (mod_id mod_)) mappedRules))
  end.

Fixpoint for_each {A} (body : A -> M unit) (l : list A) : M unit :=
  match l with
  | [] => mret tt
  | x :: rest => _ ← body x; for_each body rest
  end.

(** A [modId] that names no mod but a member that [mods] inherits reads as
    a function, which has no [attributes]: the call returns as it does for a
    mod without manifests. *)
Definition modToggled {mapping : CaseMapping} (api : Api) (profileId modId : string) : M unit :=
  let state := api_getState api in
  let profile := entry profileId (st_profiles state) in
  if negb (bool_decide (profile_gameId <$> profile = Some GAME_ID)) then mret tt
  else
    let mods := default [] (st_mods state) in
    match entry modId mods with
    | None => mret tt
    | Some mod_ =>
        match mod_attr attr_smapiManifests mod_ with
        | None | Some [] => mret tt
        | Some smapiManifests =>
            for_each (reconcile_manifest api mods mod_) (map snd smapiManifests)
        end
    end.

End Resolver.

(** ** The [semver] package

    [semver] is an external package.  This module gives [coerce] and
    [satisfies] on the part of its grammar the examples below use: versions
    [MAJOR.MINOR.PATCH] of decimal numbers without leading zeros, and the
    ranges [*], [X.Y.Z] and [^X.Y.Z].  In the package's grammar a comparator
    is an optional operator followed by a version and the caret is such an
    operator, written before the version; a text that is no range is
    satisfied by no version ([satisfies] answers [false]). *)
Module Semver.

Definition is_digit (c : ascii) : bool :=
  let n := nat_of_ascii c in (48 <=? n)%nat && (n <=? 57)%nat.

Fixpoint all_digits (s : string) : bool :=
  match s with
  | EmptyString => true
  | String c r => is_digit c && all_digits r
  end.

Fixpoint digits_value (acc : N) (s : string) : N :=
  match s with
  | EmptyString => acc
  | String c r => digits_value (acc * 10 + (N.of_nat (nat_of_ascii c) - 48))%N r
  end.

(** A numeric identifier: [0], or digits that do not start with [0]. *)
Definition numeric (s : string) : option N :=
  match s with
  | EmptyString => None
  | String c r =>
      if all_digits s && (negb (Ascii.eqb c "0") || String.eqb r "")
      then Some (digits_value 0 s) else None
  end.

Definition parse (s : string) : option (N * N * N) :=
  match split "." s with
  | [a; b; c] => a ← numeric a; b ← numeric b; c ← numeric c; Some (a, b, c)
  | _ => None
  end.

(** [String(semver.coerce(s))] for a text of one to three numbers. *)
Definition coerce (s : string) : option string :=
  match split "." s with
  | [a] => _ ← numeric a; Some (a +:+ ".0.0")
  | [a; b] => _ ← numeric a; _ ← numeric b; Some (a +:+ "." +:+ b +:+ ".0")
  | [a; b; c] => _ ← parse s; Some s
  | _ => None
  end.

Inductive comparator :=
| Any
| Exact (v : N * N * N)
| Caret (v : N * N * N).

Definition parse_range (r : string) : option comparator :=
  match r with
  | EmptyString => Some Any
  | String c rest =>
      if String.eqb r "*" then Some Any
      else if Ascii.eqb c "^" then Caret <$> parse rest
      else Exact <$> parse r
  end.

Definition test (c : comparator) (v : N * N * N) : bool :=
  let '(a, b, p) := v in
  match c with
  | Any => true
  | Exact w => bool_decide (v = w)
  | Caret (x, y, z) =>
      if (0 <? x)%N then (a =? x)%N && ((y <? b)%N || ((b =? y)%N && (z <=? p)%N))
      else if (0 <? y)%N then (a =? 0)%N && (b =? y)%N && (z <=? p)%N
      else (a =? 0)%N && (b =? 0)%N && (p =? z)%N
  end.

Definition satisfies (version range : string) : bool :=
  match parse version, parse_range range with
  | Some v, Some c => test c v
  | _, _ => false
  end.

End Semver.

(** ** String methods the installers use *)

(** [s.endsWith(suffix)] *)
Definition endsWith (s suffix : string) : bool :=
  let n := String.length s in
  let m := String.length suffix in
  (m <=? n)%nat && String.eqb (substring (n - m) m s) suffix.

(** [s.startsWith(p)] *)
Definition startsWith (s p : string) : bool := String.prefix p s.

(** [s.indexOf(pattern)] *)
Definition indexOf (s pattern : string) : Z :=
  match String.index 0 pattern s with
  | Some n => Z.of_nat n
  | None => (-1)%Z
  end.

(** [s.substr(from)] for [from >= 0] (the installers pass an [indexOf]
    result plus one). *)
Definition substr (s : string) (from : Z) : string :=
  substring (Z.to_nat from) (String.length s - Z.to_nat from) s.

(** [s.substring(0, to)] for [to >= 0]. *)
Definition substring_to (s : string) (to : Z) : string :=
  substring 0 (Z.to_nat to) s.

(** ** [installers/root-folder.ts] and [installers/smapi-mods.ts]: the
    archive tests

    [path] is Node's module: its separator (one character, [/] or [\]) and
    its functions are parameters. *)

(** [types.IInstruction], with the members the installers write and read. *)
Record IInstruction := mkInstruction {
  instr_type : string;
  instr_source : option string;
  instr_destination : option string;
}.

Definition MANIFEST_FILE : string := "manifest.json".

Definition double_quote : string := String (ascii_of_nat 34) "".

Section Installers.

Variable path_sep : ascii.
Variable path_join : string -> string -> string.
Variable path_basename : string -> string.
Variable path_extname : string -> string.

(** [path.sep + 'Content' + path.sep] *)
Definition PTRN_CONTENT : string :=
  String path_sep "" +:+ "Content" +:+ String path_sep "".

(** [file => path.join('fakeDir', file).endsWith(PTRN_CONTENT)] *)
Definition in_content_folder (file : string) : bool :=
  endsWith (path_join "fakeDir" file) PTRN_CONTENT.

(** [testRootFolder]: the [supported] member of the result. *)
Definition testRootFolder (files : list string) (gameId : string) : bool :=
  let filtered :=
    map (fun file => path_join "fakeDir" file)
      (List.filter (fun file => endsWith file (String path_sep "")) files) in
  let contentDir := List.find (fun file => endsWith file PTRN_CONTENT) filtered in
  String.eqb gameId GAME_ID && bool_decide (is_Some contentDir).

(** [installRootFolder]: the [instructions] of the result, or the error the
    promise rejects with. *)
Definition installRootFolder (files : list string) : outcome (list IInstruction) :=
  let contentFile := List.find in_content_folder files in
  if negb (truthy_str contentFile)
  then Throw ("Could not install mod as it does not include a " +:+ double_quote
              +:+ "Content" +:+ double_quote +:+ " folder.")
  else
    let contentFile := default "" contentFile in
    let idx := (indexOf contentFile PTRN_CONTENT + 1)%Z in
    let rootDir := path_basename (substring_to contentFile idx) in
    let filtered :=
      List.filter (fun file => negb (endsWith file (String path_sep ""))
                               && negb (indexOf file rootDir =? -1)%Z
                               && negb (String.eqb (path_extname file) ".txt")) files in
    Ret (map (fun file => mkInstruction "copy" (Some file) (Some (substr file idx)))
           filtered).

(** [instr.destination?.f(...)] as the callback of a [find]. *)
Definition destination_is (f : string -> bool) (instr : IInstruction) : bool :=
  match instr_destination instr with
  | Some destination => f destination
  | None => false
  end.

Definition isRootFolderMod (instructions : list IInstruction) : bool :=
  let copyInstructions :=
    List.filter (fun instr => String.eqb (instr_type instr) "copy") instructions in
  let hasManifest :=
    List.find (destination_is (fun d => endsWith d MANIFEST_FILE)) copyInstructions in
  let hasModsFolder :=
    bool_decide (is_Some (List.find
      (destination_is (fun d => startsWith d ("Mods" +:+ String path_sep "")))
      copyInstructions)) in
  let hasContentFolder :=
    bool_decide (is_Some (List.find
      (destination_is (fun d => startsWith d ("Content" +:+ String path_sep "")))
      copyInstructions)) in
  match hasManifest with
  | Some _ => hasContentFolder && hasModsFolder
  | None => hasContentFolder
  end.

(** [isValidManifest] of [smapi-mods.ts] *)
Definition isValidManifest {mapping : CaseMapping} (filePath : string) : bool :=
  let segments := split path_sep (toLowerCase filePath) in
  let isManifestFile := bool_decide (last segments = Some MANIFEST_FILE) in
  let isLocale := bool_decide ("locale" ∈ segments) in
  isManifestFile && negb isLocale.

(** [testSupported] of [smapi-mods.ts]: the [supported] member of the
    result. *)
Definition testSupported {mapping : CaseMapping} (files : list string) (gameId : string) : bool :=
  String.eqb gameId GAME_ID
  && bool_decide (is_Some (List.find isValidManifest files))
  && negb (bool_decide (is_Some (List.find in_content_folder files))).

End Installers.

(** [getBundledMods] of [smapi.ts]; [bundled] is the module's array
    [_SMAPI_BUNDLED_MODS], to which [installSMAPI] pushes. *)
Definition getBundledMods {mapping : CaseMapping} (bundled : list string) : list string :=
  new_Set (map toLowerCase bundled).

(** ** [savegames]: play time and the backup action *)

(** [input.toString().padStart(2, '0')] for a natural number *)
Definition padTo2Digits (input : N) : string :=
  let digits := NilZero.string_of_uint (N.to_uint input) in
  if (String.length digits <? 2)%nat then "0" +:+ digits else digits.

(** [convertMsToHM] for a number of milliseconds that is a natural number
    below [2 ^ 53]: there the divisions of the code, which are divisions of
    doubles followed by [Math.floor], give the quotients of the natural
    numbers. *)
Definition convertMsToHM (ms : N) : string :=
  let seconds := (ms / 1000)%N in
  let minutes := (seconds / 60)%N in
  let hours := (minutes / 60)%N in
  let seconds := (seconds mod 60)%N in
  let minutes := if (30 <=? seconds)%N then (minutes + 1)%N else minutes in
  let minutes := (minutes mod 60)%N in
  padTo2Digits hours +:+ ":" +:+ padTo2Digits minutes.

(** [ISave], with the member [showBackupOption] reads. *)
Record ISaveDetails := mkSaveDetails {
  details_hasBackup : value;
}.

Record ISave := mkSave {
  save_id : string;
  save_details : option ISaveDetails;
}.

(** What the read [saves[id]] gives: [saves] is an array that the code
    indexes with the ids.  Besides a save, a read gives [undefined] (or
    [null]), or another member of the array (its [length], a method, a member
    inherited from [Object.prototype]), which has no [details]. *)
Inductive SavesMember : Type :=
| MemberUndefined
| MemberSave (save : ISave)
| MemberOther.

(** [savesList.find(s => s.details?.hasBackup === true)]: reading [details]
    of [undefined] throws. *)
Fixpoint find_backup (savesList : list SavesMember) : outcome (option SavesMember) :=
  match savesList with
  | [] => Ret None
  | MemberUndefined :: _ => Throw "TypeError: cannot read properties of undefined"
  | MemberOther :: rest => find_backup rest
  | MemberSave s :: rest =>
      if match save_details s with
         | Some details => is_true (details_hasBackup details)
         | None => false
         end
      then Ret (Some (MemberSave s))
      else find_backup rest
  end.

(** [showBackupOption]; [ids] is the array the function makes of its
    argument, and [saves] is given by its property read. *)
Definition showBackupOption (ids : list string) (saves : string -> SavesMember)
  : outcome bool :=
  let savesList := map (fun id => saves id) ids in
  match find_backup savesList with
  | Ret found => Ret (bool_decide (is_Some found))
  | Throw e => Throw e
  end.


(** ** Vocabulary of the statements *)

(** The request [sendQuery] posts when the game version is [gameVersion]. *)
Definition query_request (api : Api) (mods : list IAPIModIdentity) (includeMeta : option bool)
    (gameVersion : string) : IAPIPostRequest :=
  mkRequest mods "3.0" (join "." (take 3 (split "." gameVersion)))
    (platform_tag (api_platform api)) includeMeta.

(** Between [w] and [w'] the failure of a query was logged, and nothing else
    than the trace changed. *)
Definition failure_logged (w w' : World) : Prop :=
  w_heap w' = w_heap w /\
  exists evs,
    w_trace w' = w_trace w ++ evs ++ [EvLog "error" "Error fetching data from the SMAPI API"].

(** What the catalog answers to a batch, when the query goes through. *)
Definition query_answer (api : Api) (mods : list IAPIModIdentity) (includeMeta : option bool)
  : option ResponseData :=
  match api_getGame api with
  | Some (VersionResolves v) =>
      if String.eqb v "" then None
      else match api_post api api_url (query_request api mods includeMeta v) with
           | PostResolves d => Some d
           | PostRejects _ => None
           end
  | _ => None
  end.

(** The events of one [sendQuery]. *)
Definition query_events (api : Api) (mods : list IAPIModIdentity) (includeMeta : option bool)
  : list Event :=
  match api_getGame api with
  | Some (VersionResolves v) =>
      if String.eqb v "" then [EvLog "error" "Error fetching data from the SMAPI API"]
      else
        let data := query_request api mods includeMeta v in
        [EvConsoleLog "SMAPI API request"; EvPost api_url data] ++
        match api_post api api_url data with
        | PostResolves d => [EvConsoleLog "SMAPI API response"]
        | PostRejects _ => [EvLog "error" "Error fetching data from the SMAPI API"]
        end
  | _ => [EvLog "error" "Error fetching data from the SMAPI API"]
  end.

(** The network calls of a trace. *)
Definition posts (trace : list Event) : list IAPIPostRequest :=
  omap (fun e => match e with EvPost _ data => Some data | _ => None end) trace.

(** The batches dispatched to the host store, in order. *)
Definition dispatches (trace : list Event) : list (list Action) :=
  omap (fun e => match e with EvBatchDispatch actions => Some actions | _ => None end) trace.

(** The value [getManifestValue] finds for a key. *)
Definition manifest_value {mapping : CaseMapping} (manifest : value) (key : string) : value :=
  if negb (truthy manifest) then VUndefined
  else if truthy (get_prop manifest key) then get_prop manifest key
  else
    match List.find (key_matches key) (object_keys manifest) with
    | Some keyMatch =>
        if negb (String.eqb keyMatch "") then get_prop manifest keyMatch else VUndefined
    | None => VUndefined
    end.

(** The value [normaliseDependencies] returns. *)
Definition normalised {mapping : CaseMapping} (input : value) : value :=
  let UniqueID := manifest_value input "UniqueID" in
  let MinimumVersion := manifest_value input "MinimumVersion" in
  let isRequired := js_or (manifest_value input "isRequired") (VBool false) in
  if truthy UniqueID
  then VObj ([("UniqueID", UniqueID); ("isRequired", isRequired)]
             ++ if truthy MinimumVersion then [] else [("MinimumVersion", MinimumVersion)])
  else VUndefined.

(** The first declaration whose id is exactly [cur]. *)
Definition first_with (dependencies : list Dependency) (cur : string) : option Dependency :=
  List.find (fun d => bool_decide (dep_UniqueID d = Some cur)) dependencies.

(** The ids [mapDependencies] puts into its [Set]. *)
Definition declared_ids (dependencies : list Dependency) : list string :=
  omap dep_UniqueID (List.filter (fun d => truthy_str (dep_UniqueID d)) dependencies).

(** The rule [r] is one of the three rules the resolver writes for [d]. *)
Definition rule_for (d : Dependency) (r : Rule) : Prop :=
  (exists found, r = local_rule d found) \/
  (exists smapiInfo, r = remote_rule d smapiInfo) \/
  r = unresolved_rule d.

(** The catalog entry the resolver picks for [d]. *)
Definition catalog_entry {mapping : CaseMapping} (items : list IAPIMod) (d : Dependency) : option IAPIMod :=
  List.find
    (fun s => String.eqb (toLowerCase (res_id s)) (toLowerCase (default "" (dep_UniqueID d))))
    items.

Definition resolve_missing {mapping : CaseMapping} (items : list IAPIMod) (d : Dependency) : Rule :=
  match catalog_entry items d with
  | Some smapiInfo => remote_rule d smapiInfo
  | None => unresolved_rule d
  end.

(** The batch sent for the dependencies without a local match. *)
Definition identities (missing : list Dependency) : list IAPIModIdentity :=
  map (fun d => mkIdentity (value_of_string (dep_UniqueID d)) None None) missing.


Section ResolverSpec.

Variable semver_coerce : string -> option string.
Variable semver_satisfies : string -> string -> bool.

Definition locals_of (modArray : list IMod) (deps : list Dependency) : list Rule :=
  omap (fun d => local_rule d <$> local_match semver_coerce semver_satisfies modArray d) deps.

Definition unmatched (modArray : list IMod) (d : Dependency) : bool :=
  match local_match semver_coerce semver_satisfies modArray d with
  | Some _ => false
  | None => true
  end.

Definition missing_of (modArray : list IMod) (deps : list Dependency) : list Dependency :=
  List.filter (unmatched modArray) deps.

(** The declarations with a local match, in their order. *)
Definition matched_of (modArray : list IMod) (deps : list Dependency) : list Dependency :=
  List.filter (fun d => negb (unmatched modArray d)) deps.

Definition catalog_response (api : Api) (modArray : list IMod) (deps : list Dependency)
  : ResponseData :=
  default (DataArray [])
    (query_answer api (identities (missing_of modArray (filteredDependencies deps)))
       (Some true)).

(** The rules [mapDependencies] returns. *)
Definition resolution {mapping : CaseMapping} (api : Api) (modArray : list IMod) (deps : list Dependency)
  : list Rule :=
  let working := filteredDependencies deps in
  let missing := missing_of modArray working in
  match catalog_response api modArray deps, missing with
  | DataArray items, _ => locals_of modArray working ++ map (resolve_missing items) missing
  | DataOther, [] => locals_of modArray working
  | DataOther, _ :: _ => map unresolved_rule missing
  end.

Definition resolution_events (api : Api) (modArray : list IMod) (deps : list Dependency)
  : list Event :=
  let missing := missing_of modArray (filteredDependencies deps) in
  query_events api (identities missing) (Some true) ++
  match catalog_response api modArray deps, missing with
  | DataOther, _ :: _ => [EvLog "error" "Could not get dependency data from SMAPI"]
  | _, _ => []
  end.

(** The rule written for one member of the working set when the catalog
    answered with [items]. *)
Definition resolve_one {mapping : CaseMapping} (modArray : list IMod) (items : list IAPIMod) (d : Dependency) : Rule :=
  match local_match semver_coerce semver_satisfies modArray d with
  | Some found => local_rule d found
  | None => resolve_missing items d
  end.

End ResolverSpec.

(** ** Concrete inputs *)

Definition world0 : World := mkWorld ∅ [].

(** A world whose only array, at [1], holds [items]. *)
Definition stored_at_1 (items : list Dependency) : World :=
  mkWorld {[ 1%positive := items ]} [].

(** A stored manifest with an id and a version. *)
Definition manifest_with (uniqueId version : string) (contentPackFor : option ContentPackFor)
    (dependencies : option loc) : ISMAPIManifest :=
  mkManifest None None (Some version) None (Some uniqueId) None None None
    contentPackFor dependencies None.

(** An installed mod that bundles one manifest. *)
Definition installed (id uniqueId version : string) (contentPackFor : option ContentPackFor)
    (dependencies : option loc) (rules : option (list Rule)) : IMod :=
  mkMod id None
    (Some (mkAttributes
             (Some [(uniqueId, manifest_with uniqueId version contentPackFor dependencies)])
             None None None None None))
    rules.

(** A host that knows the game version and whose catalog answers every
    request with [answer]. *)
Definition host (mods : list (string * IMod)) (answer : PostResult) : Api :=
  mkApi (mkState [("profile-1", mkProfile GAME_ID)] (Some mods))
    (Some (VersionResolves "1.5.6.1")) "win32" (fun _ _ => answer) mod_id.

Definition mod_b : IMod := installed "mod-b" "B" "1.2.0" None None None.

(** An installed mod known by its SMAPI id only. *)
Definition mod_b_ids : IMod :=
  mkMod "mod-b" None (Some (mkAttributes None None (Some [mkSmapiID "B"]) None None None)) None.

Definition requires_B : Dependency := mkDependency (Some "B") (VBool true) None.
Definition recommends_C : Dependency := mkDependency (Some "C") VUndefined None.
Definition requires_B_1_0_0 : Dependency := mkDependency (Some "B") (VBool true) (Some "1.0.0").
Definition optional_Foo : Dependency := mkDependency (Some "Foo.Mod") (VBool false) None.
Definition required_foo : Dependency := mkDependency (Some "foo.mod") (VBool true) None.
Definition required_Foo : Dependency := mkDependency (Some "Foo.Mod") (VBool true) None.
Definition stringly_D : Dependency := mkDependency (Some "D") (VStr "true") None.

Definition catalog_D : IAPIMod := mkAPIMod "d" None.

(** The owner ["mod-a"], whose manifest keeps its [Dependencies] at [p], with
    the rules [rules], next to [mod_b]. *)
Definition owner_state (contentPackFor : option ContentPackFor) (p : loc)
    (rules : option (list Rule)) : list (string * IMod) :=
  [("mod-a", installed "mod-a" "A" "1.0.0" contentPackFor (Some p) rules);
   ("mod-b", mod_b)].

(** ** Vocabulary of the further properties *)

(** The catalog never answers with a body that is not an array. *)
Definition answers_arrays (api : Api) : Prop :=
  forall url data, api_post api url data <> PostResolves DataOther.

(** The warning [getManifestValue] logs for a member that is missing. *)
Definition field_log {A} (field : option A) : list Event :=
  match field with
  | Some _ => []
  | None => [EvLog "warn" "Could not find key on SMAPI mod manifest"]
  end.

(** The warnings of one [new SMAPIManifestClass(raw)]. *)
Definition manifest_logs (raw : ISMAPIManifest) : list Event :=
  field_log (m_Name raw) ++ field_log (m_Author raw) ++ field_log (m_Version raw)
  ++ field_log (m_Description raw) ++ field_log (m_UniqueID raw)
  ++ field_log (m_EntryDll raw) ++ field_log (m_MinimumApiVersion raw)
  ++ field_log (m_UpdateKeys raw) ++ field_log (m_ContentPackFor raw)
  ++ field_log (m_Dependencies raw) ++ field_log (m_ModUpdater raw).

(** Where the [Dependencies] of the class instance are: the array of the raw
    manifest, or a new empty array. *)
Definition parsed_location (raw : ISMAPIManifest) (heap : gmap loc (list Dependency)) : loc :=
  match m_Dependencies raw with
  | Some p => p
  | None => fresh (dom heap)
  end.

Definition parsed_heap (raw : ISMAPIManifest) (heap : gmap loc (list Dependency))
  : gmap loc (list Dependency) :=
  match m_Dependencies raw with
  | Some p => heap
  | None => <[fresh (dom heap) := []]> heap
  end.

Definition parsed_class (raw : ISMAPIManifest) (heap : gmap loc (list Dependency))
  : SMAPIManifestClass :=
  mkManifestClass (m_Name raw) (m_Author raw) (m_Version raw) (m_Description raw)
    (m_UniqueID raw) (m_EntryDll raw) (m_MinimumApiVersion raw) (m_UpdateKeys raw)
    (m_ContentPackFor raw) (parsed_location raw heap) (m_ModUpdater raw).

(** The [Dependencies] array after the content-pack dependency was pushed. *)
Definition pushed_heap (raw : ISMAPIManifest) (heap : gmap loc (list Dependency))
  : gmap loc (list Dependency) :=
  match m_ContentPackFor raw with
  | Some contentPackFor =>
      alter (fun items => items ++ [mkDependency (cpf_UniqueID contentPackFor) (VBool true) None])
        (parsed_location raw heap) (parsed_heap raw heap)
  | None => parsed_heap raw heap
  end.

(** The declarations [modToggled] resolves for a manifest. *)
Definition declared_of (raw : ISMAPIManifest) (heap : gmap loc (list Dependency))
  : list Dependency :=
  default [] (pushed_heap raw heap !! parsed_location raw heap).

(** The pair of batches dispatched for the rules [mapped]: the removals, then
    the additions, both for the toggled mod. *)
Definition batch_pair (owner : IMod) (mapped : list Rule) : list (list Action) :=
  [map (removeModRule GAME_ID (mod_id owner))
     (rulesToRemove (default [] (mod_rules owner)) mapped);
   map (addModRule GAME_ID (mod_id owner)) mapped].

Section ReconcilerSpec.

Variable semver_coerce : string -> option string.
Variable semver_satisfies : string -> string -> bool.

(** The rules computed for a manifest. *)
Definition mapped_for {mapping : CaseMapping} (api : Api) (mods : list (string * IMod)) (raw : ISMAPIManifest)
    (heap : gmap loc (list Dependency)) : list Rule :=
  resolution semver_coerce semver_satisfies api (map snd mods) (declared_of raw heap).

(** The two batches dispatched for a manifest, if any. *)
Definition batches_for {mapping : CaseMapping} (api : Api) (mods : list (string * IMod)) (owner : IMod)
    (raw : ISMAPIManifest) (heap : gmap loc (list Dependency)) : list (list Action) :=
  match mapped_for api mods raw heap with
  | [] => []
  | mapped => batch_pair owner mapped
  end.

Definition reconcile_events {mapping : CaseMapping} (api : Api) (mods : list (string * IMod)) (owner : IMod)
    (raw : ISMAPIManifest) (heap : gmap loc (list Dependency)) : list Event :=
  manifest_logs raw
  ++ resolution_events semver_coerce semver_satisfies api (map snd mods) (declared_of raw heap)
  ++ map EvBatchDispatch (batches_for api mods owner raw heap).

(** The batches dispatched for the manifests [raws], one after the other,
    the first of them met with the arrays [heap]. *)
Fixpoint batches_of {mapping : CaseMapping} (api : Api) (mods : list (string * IMod)) (owner : IMod)
    (raws : list ISMAPIManifest) (heap : gmap loc (list Dependency)) : list (list Action) :=
  match raws with
  | [] => []
  | raw :: rest =>
      batches_for api mods owner raw heap
      ++ batches_of api mods owner rest (pushed_heap raw heap)
  end.

End ReconcilerSpec.

(** The identities [fetchModInfo] sends for one mod. *)
Definition identities_of (cur : IMod) : list IAPIModIdentity :=
  map (fun m => mkIdentity (VStr (md_id m)) (Some (update_keys_of cur)) (md_version m))
    (default [] (mod_attr attr_modData cur)).

(** ** Node's [path] on POSIX

    [join], [basename] and [extname] on relative paths in normal form (no
    empty, [.] or [..] segment), which is what the entries of an archive
    are. *)

Module Posix.

Definition sep : ascii := "/".

Definition join (a b : string) : string :=
  if String.eqb b "" then a else a +:+ "/" +:+ b.

Definition basename (p : string) : string :=
  default "" (last (List.filter (fun s => negb (String.eqb s "")) (split sep p))).

Definition extname (p : string) : string :=
  match split "." (basename p) with
  | [] | [_] | [EmptyString; _] => ""
  | segments => "." +:+ default "" (last segments)
  end.

End Posix.

(** ** Further concrete inputs *)

Definition no_id : Dependency := mkDependency None (VBool true) None.

(** An array of saves with the save ["a"], which has no backup. *)
Definition saves_a (id : string) : SavesMember :=
  if String.eqb id "a" then MemberSave (mkSave "a" (Some (mkSaveDetails (VBool false))))
  else if String.eqb id "length" then MemberOther
  else MemberUndefined.

(** A replacement mod: a [Content] folder inside the mod's folder. *)
Definition replacement_archive : list string :=
  ["SomeMod/"; "SomeMod/Content/"; "SomeMod/Content/Data.xnb"; "SomeMod/Readme.txt"].

(** [c] occurs in [s]. *)
Fixpoint occurs (c : ascii) (s : string) : bool :=
  match s with
  | EmptyString => false
  | String c' r => Ascii.eqb c' c || occurs c r
  end.

(** A host that does not know the game. *)
Definition host_without_game (mods : list (string * IMod)) (answer : PostResult) : Api :=
  mkApi (mkState [("profile-1", mkProfile GAME_ID)] (Some mods))
    None "win32" (fun _ _ => answer) mod_id.

(** An installed mod with one entry of [modData], from Nexus Mods. *)
Definition mod_with_data : IMod :=
  mkMod "mod-d" None
    (Some (mkAttributes None (Some [mkModData "D" (Some "1.0.0")]) None (Some "42") None
             (Some "nexus")))
    None.


(** The examples are evaluated with the case mapping of the ASCII letters. *)
#[export] Instance ascii_case : CaseMapping := {| toLowerCase := ascii_toLowerCase |}.

(** * Properties *)

Ltac unfold_m :=
  unfold mbind, M_bind, mret, M_ret, try_catch, throw, log, emit in *.

(** ** The catalog client *)

Lemma sendQuery_eq api mods includeMeta w :
  sendQuery api mods includeMeta w =
    (Ret (default (DataArray []) (query_answer api mods includeMeta)),
     mkWorld (w_heap w) (w_trace w ++ query_events api mods includeMeta)).
Proof.
  unfold sendQuery, getGameVersion, query_answer, query_events, query_request.
  unfold_m.
  destruct (api_getGame api) as [[ | v | e] | ]; simpl; try reflexivity.
  destruct (String.eqb v "") eqn:Ev; simpl; try reflexivity.
  destruct (api_post api api_url _); simpl; rewrite <- ?app_assoc; reflexivity.
Qed.

(** ** Deduplication of the declared dependencies *)

Lemma fold_left_push {A B} (f : A -> option B) (l : list A) (acc : list B) :
  fold_left (fun prev cur => match f cur with Some x => prev ++ [x] | None => prev end) l acc
  = acc ++ omap f l.
Proof.
  revert acc. induction l as [|a l IH]; intros acc; simpl.
  - by rewrite app_nil_r.
  - rewrite IH. destruct (f a); simpl; [by rewrite <- app_assoc | done].
Qed.

Lemma filteredDependencies_eq dependencies :
  filteredDependencies dependencies
  = omap (first_with dependencies) (new_Set (declared_ids dependencies)).
Proof. unfold filteredDependencies. by rewrite fold_left_push. Qed.

Lemma Set_add_fold (l acc : list string) :
  NoDup acc ->
  NoDup (fold_left Set_add l acc) /\
  forall x, x ∈ fold_left Set_add l acc <-> x ∈ acc \/ x ∈ l.
Proof.
  revert acc. induction l as [|a l IH]; intros acc Hnd; simpl.
  - split; [done|]. intros x. rewrite elem_of_nil. tauto.
  - unfold Set_add at 2 4. case_bool_decide as Ha.
    + destruct (IH acc Hnd) as [H1 H2]. split; [done|].
      intros x. rewrite H2, elem_of_cons. split; [tauto|].
      intros [?|[->|?]]; tauto.
    + assert (NoDup (acc ++ [a])) as Hnd'.
      { apply NoDup_app. split_and!; [done| |apply NoDup_singleton].
        intros x Hx ->%list_elem_of_singleton. done. }
      destruct (IH _ Hnd') as [H1 H2]. split; [done|].
      intros x. rewrite H2, elem_of_app, list_elem_of_singleton, elem_of_cons. tauto.
Qed.

Lemma new_Set_NoDup l : NoDup (new_Set l).
Proof. apply Set_add_fold, NoDup_nil_2. Qed.

Lemma elem_of_new_Set l x : x ∈ new_Set l <-> x ∈ l.
Proof.
  unfold new_Set. destruct (Set_add_fold l [] (NoDup_nil_2)) as [_ H].
  rewrite H, elem_of_nil. tauto.
Qed.

Lemma truthy_str_Some s : truthy_str (Some s) = true <-> s <> "".
Proof.
  simpl. destruct (String.eqb_spec s ""); simpl; split; congruence.
Qed.

Lemma elem_of_declared_ids dependencies u :
  u ∈ declared_ids dependencies <->
  exists d, d ∈ dependencies /\ dep_UniqueID d = Some u /\ u <> "".
Proof.
  unfold declared_ids. rewrite list_elem_of_omap. split.
  - intros (d & Hd & Hu). apply list_elem_of_In, filter_In in Hd as [Hd Ht].
    exists d. rewrite Hu in Ht. apply truthy_str_Some in Ht.
    by rewrite list_elem_of_In.
  - intros (d & Hd & Hu & Hne). exists d. split; [|done].
    apply list_elem_of_In, filter_In. split; [by apply list_elem_of_In|].
    rewrite Hu. by apply truthy_str_Some.
Qed.

Lemma first_with_Some dependencies cur d :
  first_with dependencies cur = Some d -> d ∈ dependencies /\ dep_UniqueID d = Some cur.
Proof.
  unfold first_with. intros [Hin Hd]%find_some.
  apply bool_decide_eq_true in Hd. by rewrite list_elem_of_In.
Qed.

Lemma first_with_is_Some dependencies cur d :
  d ∈ dependencies -> dep_UniqueID d = Some cur -> is_Some (first_with dependencies cur).
Proof.
  intros Hin Hd. unfold first_with.
  destruct (List.find _ dependencies) eqn:E; [by eexists|].
  apply list_elem_of_In in Hin. apply (find_none _ _ E d) in Hin.
  apply bool_decide_eq_false in Hin. done.
Qed.

(** A member of the working set is the first declaration with its id, and
    its id is not empty. *)
Lemma elem_of_filteredDependencies dependencies d :
  d ∈ filteredDependencies dependencies <->
  exists u, u <> "" /\ dep_UniqueID d = Some u /\ first_with dependencies u = Some d.
Proof.
  rewrite filteredDependencies_eq, list_elem_of_omap. split.
  - intros (u & Hu & Hf). exists u.
    rewrite elem_of_new_Set, elem_of_declared_ids in Hu. destruct Hu as (d' & _ & _ & Hne).
    apply first_with_Some in Hf as Hf'. tauto.
  - intros (u & Hne & Hu & Hf). exists u. split; [|done].
    apply elem_of_new_Set, elem_of_declared_ids. exists d.
    apply first_with_Some in Hf. tauto.
Qed.

Lemma filteredDependencies_declared dependencies d :
  d ∈ filteredDependencies dependencies -> d ∈ dependencies.
Proof.
  intros (u & _ & _ & Hf)%elem_of_filteredDependencies.
  exact (proj1 (first_with_Some _ _ _ Hf)).
Qed.

Lemma filteredDependencies_ids dependencies :
  dep_UniqueID <$> filteredDependencies dependencies
  = Some <$> new_Set (declared_ids dependencies).
Proof.
  rewrite filteredDependencies_eq.
  assert (forall u, u ∈ new_Set (declared_ids dependencies) ->
            exists d, first_with dependencies u = Some d /\ dep_UniqueID d = Some u) as H.
  { intros u Hin. rewrite elem_of_new_Set, elem_of_declared_ids in Hin.
    destruct Hin as (d & Hd & Hu & _).
    destruct (first_with_is_Some _ _ _ Hd Hu) as [d' Hd'].
    exists d'. split; [done|]. exact (proj2 (first_with_Some _ _ _ Hd')). }
  induction (new_Set (declared_ids dependencies)) as [|u l IH]; [done|].
  simpl. destruct (H u) as (d & -> & Hu); [left|].
  simpl. rewrite Hu. f_equal. apply IH. intros u' Hu'. apply H. by right.
Qed.

Lemma filteredDependencies_NoDup dependencies :
  NoDup (dep_UniqueID <$> filteredDependencies dependencies).
Proof.
  rewrite filteredDependencies_ids. apply NoDup_fmap_2; [apply _|apply new_Set_NoDup].
Qed.

(** ** Iteration in the monad *)

Lemma mapM_M_ret {A B} (f : A -> M B) (g : A -> B) (l : list A) (w : World) :
  (forall x, x ∈ l -> f x w = (Ret (g x), w)) ->
  mapM f l w = (Ret (g <$> l), w).
Proof.
  induction l as [|x l IH]; intros H; [done|].
  simpl. unfold_m. rewrite H by left.
  rewrite IH; [done|]. intros y Hy. apply H. by right.
Qed.

Lemma mapM_M_throw {A B} (f : A -> M B) (x : A) (l : list A) (e : string) (w : World) :
  f x w = (Throw e, w) -> mapM f (x :: l) w = (Throw e, w).
Proof. intros H. simpl. unfold_m. by rewrite H. Qed.

Lemma find_m_pure {A} (f : A -> M bool) (g : A -> bool) (l : list A) (w : World) :
  (forall x, f x w = (Ret (g x), w)) ->
  find_m f l w = (Ret (List.find g l), w).
Proof.
  intros H. induction l as [|x l IH]; [done|].
  simpl. unfold_m. rewrite H. destruct (g x); [done|apply IH].
Qed.

(** ** The resolver *)

Section ResolverFacts.

Context {mapping : CaseMapping}.

Variable semver_coerce : string -> option string.
Variable semver_satisfies : string -> string -> bool.

Local Abbreviation local_match' := (local_match semver_coerce semver_satisfies).
Local Abbreviation match_installed' := (match_installed semver_coerce semver_satisfies).
Local Abbreviation mapDependencies' := (mapDependencies semver_coerce semver_satisfies).
Local Abbreviation locals_of' := (locals_of semver_coerce semver_satisfies).
Local Abbreviation missing_of' := (missing_of semver_coerce semver_satisfies).
Local Abbreviation resolution' := (resolution semver_coerce semver_satisfies).
Local Abbreviation resolution_events' := (resolution_events semver_coerce semver_satisfies).
Local Abbreviation catalog_response' := (catalog_response semver_coerce semver_satisfies).
Local Abbreviation resolve_one' := (resolve_one semver_coerce semver_satisfies).

Lemma match_installed_eq modArray deps rules missing :
  match_installed' modArray deps rules missing
  = (rules ++ locals_of' modArray deps, missing ++ missing_of' modArray deps).
Proof.
  revert rules missing. induction deps as [|d deps IH]; intros rules missing; simpl.
  - by rewrite !app_nil_r.
  - unfold unmatched. destruct (local_match' modArray d) as [found|]; simpl.
    + rewrite IH. by rewrite <- app_assoc.
    + rewrite IH. by rewrite <- app_assoc.
Qed.

Lemma find_response_array items d u w :
  dep_UniqueID d = Some u ->
  find_response (DataArray items) (mret (value_of_string (dep_UniqueID d))) w
  = (Ret (catalog_entry items d), w).
Proof.
  intros Hu. unfold find_response, catalog_entry. rewrite Hu. simpl.
  apply find_m_pure. intros s. reflexivity.
Qed.

Lemma elem_of_missing_of modArray deps d :
  d ∈ missing_of' modArray deps <-> d ∈ deps /\ local_match' modArray d = None.
Proof.
  unfold missing_of, unmatched. rewrite list_elem_of_In, filter_In, <- list_elem_of_In.
  destruct (local_match' modArray d); split; intros [? ?]; split; congruence.
Qed.

(** [mapDependencies] always returns, with the rules of [resolution]; it
    only adds events to the world. *)
Lemma mapDependencies_eq api mods deps w :
  mapDependencies' api mods deps w
  = (Ret (resolution' api (map snd mods) deps),
     mkWorld (w_heap w) (w_trace w ++ resolution_events' api (map snd mods) deps)).
Proof.
  unfold mapDependencies, resolution, resolution_events, catalog_response.
  rewrite match_installed_eq. simpl.
  set (working := filteredDependencies deps).
  set (missing := missing_of' (map snd mods) working).
  unfold try_catch. unfold mbind at 1, M_bind at 1.
  rewrite sendQuery_eq. fold (identities missing).
  set (w1 := mkWorld _ _).
  assert (forall d, d ∈ missing -> exists u, dep_UniqueID d = Some u) as Hids.
  { intros d [Hd _]%elem_of_missing_of.
    apply elem_of_filteredDependencies in Hd as (u & _ & Hu & _). eauto. }
  destruct (default (DataArray []) (query_answer api (identities missing) (Some true)))
    as [items|] eqn:Hans.
  - unfold mbind at 1, M_bind at 1.
    rewrite (mapM_M_ret _ (resolve_missing items)).
    + simpl. subst w1. simpl. by rewrite app_nil_r.
    + intros d Hd. destruct (Hids d Hd) as [u Hu]. unfold_m.
      rewrite (find_response_array items d u) by done.
      unfold resolve_missing. by destruct (catalog_entry items d).
  - destruct missing as [|d missing'] eqn:Hm.
    + simpl. subst w1. simpl. unfold_m. simpl. by rewrite !app_nil_r.
    + unfold mbind at 1, M_bind at 1.
      rewrite (mapM_M_throw _ _ _ "TypeError: find is not a function"); [|done].
      unfold_m. subst w1. simpl. by rewrite <- app_assoc.
Qed.

Lemma elem_of_locals_of modArray deps r :
  r ∈ locals_of' modArray deps ->
  exists d found, d ∈ deps /\ local_match' modArray d = Some found /\ r = local_rule d found.
Proof.
  unfold locals_of. intros (d & Hd & Hr)%list_elem_of_omap.
  destruct (local_match' modArray d) as [found|] eqn:E; [|done].
  exists d, found. simpl in Hr. by simplify_eq.
Qed.

Lemma resolve_missing_rule_for items d : rule_for d (resolve_missing items d).
Proof.
  unfold resolve_missing, rule_for. destruct (catalog_entry items d); eauto.
Qed.

(** Every rule of the result is one of the three rules of a member of the
    working set. *)
Lemma resolution_rule_for api modArray deps r :
  r ∈ resolution' api modArray deps ->
  exists d, d ∈ filteredDependencies deps /\ rule_for d r.
Proof.
  unfold resolution.
  destruct (catalog_response' api modArray deps) as [items|].
  - intros [Hr|Hr]%elem_of_app.
    + apply elem_of_locals_of in Hr as (d & found & Hd & _ & ->).
      exists d. split; [done|]. left. eauto.
    + apply list_elem_of_fmap in Hr as (d & -> & [Hd _]%elem_of_missing_of).
      exists d. split; [done|]. apply resolve_missing_rule_for.
  - destruct (missing_of' modArray (filteredDependencies deps)) as [|d0 l] eqn:E.
    + intros Hr. apply elem_of_locals_of in Hr as (d & found & Hd & _ & ->).
      exists d. split; [done|]. left. eauto.
    + rewrite <- E. intros (d & -> & [Hd _]%elem_of_missing_of)%list_elem_of_fmap.
      exists d. split; [done|]. right. by right.
Qed.

(** A pass that sends each element to one of two lists keeps them all. *)
Lemma partition_Permutation (deps : list Dependency) (found : Dependency -> option Rule)
    (other : Dependency -> Rule) :
  omap found deps
    ++ map other (List.filter (fun d => match found d with Some _ => false | None => true end) deps)
  ≡ₚ map (fun d => default (other d) (found d)) deps.
Proof.
  induction deps as [|d deps IH]; [done|].
  simpl. destruct (found d) as [r|]; simpl.
  - by rewrite IH.
  - rewrite <- IH. by rewrite <- Permutation_middle.
Qed.

(** When the catalog answers with an array (or the query fails and an empty
    array stands in), the result holds exactly one rule for each member of
    the working set. *)
Lemma resolution_Permutation api modArray deps items :
  catalog_response' api modArray deps = DataArray items ->
  resolution' api modArray deps
  ≡ₚ map (resolve_one' modArray items) (filteredDependencies deps).
Proof.
  intros Hresp. unfold resolution. rewrite Hresp.
  unfold locals_of, missing_of.
  rewrite (filter_ext (unmatched semver_coerce semver_satisfies modArray)
             (fun d => match local_rule d <$> local_match' modArray d with
                       | Some _ => false
                       | None => true
                       end)).
  2: { intros d. unfold unmatched. by destruct (local_match' modArray d). }
  rewrite (partition_Permutation (filteredDependencies deps)
             (fun d => local_rule d <$> local_match' modArray d) (resolve_missing items)).
  erewrite map_ext; [reflexivity|].
  intros d. unfold resolve_one. by destruct (local_match' modArray d).
Qed.

End ResolverFacts.

(** ** The catalog client never raises (C6, C7) *)

(** C6.  For every batch and flag, [sendQuery] returns: when the game or its
    version is unavailable, or the request is rejected (transport or
    protocol error), the failure is logged and the result is the empty
    sequence; otherwise the result is what the server sent. *)
Theorem sendQuery_never_raises api mods includeMeta w :
  exists data w',
    sendQuery api mods includeMeta w = (Ret data, w') /\
    match api_getGame api with
    | None | Some VersionMissing | Some (VersionRejects _) =>
        data = DataArray [] /\ failure_logged w w'
    | Some (VersionResolves v) =>
        if String.eqb v "" then data = DataArray [] /\ failure_logged w w'
        else
          match api_post api api_url (query_request api mods includeMeta v) with
          | PostRejects _ => data = DataArray [] /\ failure_logged w w'
          | PostResolves sent => data = sent
          end
    end.
Proof.
  eexists _, _. split; [apply sendQuery_eq|].
  unfold query_answer, query_events, failure_logged. simpl.
  destruct (api_getGame api) as [[ | v | e] | ]; simpl;
    try (split_and!; [done..|by exists []]).
  destruct (String.eqb v ""); simpl; [split_and!; [done..|by exists []]|].
  destruct (api_post api api_url _); simpl; [done|].
  split_and!; [done..|]. by eexists [_; _].
Qed.

(** C7, as the claim states it, fails for [sendQuery]: with an empty batch it
    posts the request all the same and returns the server's answer. *)
Lemma sendQuery_posts_empty_batch :
  sendQuery (host [] (PostResolves (DataArray [catalog_D]))) [] (Some true) world0
  = (Ret (DataArray [catalog_D]),
     mkWorld ∅
       [EvConsoleLog "SMAPI API request";
        EvPost api_url (mkRequest [] "3.0" "1.5.6" "Windows" (Some true));
        EvConsoleLog "SMAPI API response"]).
Proof. vm_compute. reflexivity. Qed.

(** C7, amended.  [fetchModInfo] returns the empty sequence and leaves the
    world as it is (no network call, no event) when the batch it builds from
    the mods to check is empty. *)
Theorem fetchModInfo_empty_batch api includeMeta modsToCheck w :
  mod_identities (default (getAllMods api) modsToCheck) = [] ->
  fetchModInfo api includeMeta modsToCheck w = (Ret (DataArray []), w).
Proof.
  intros Hempty. unfold fetchModInfo.
  destruct modsToCheck as [mods|]; simpl in Hempty; by rewrite Hempty.
Qed.

Lemma fetchModInfo_empty_batch_witness :
  fetchModInfo (host [("mod-b", mod_b)] (PostResolves (DataArray [catalog_D]))) true None world0
  = (Ret (DataArray []), world0).
Proof. apply fetchModInfo_empty_batch. reflexivity. Defined.

(** One call of [sendQuery] posts at most one request. *)
Theorem sendQuery_at_most_one_post api mods includeMeta w :
  exists data w',
    sendQuery api mods includeMeta w = (Ret data, w') /\
    (posts (w_trace w') = posts (w_trace w) \/
     exists request, posts (w_trace w') = posts (w_trace w) ++ [request]).
Proof.
  eexists _, _. split; [apply sendQuery_eq|]. simpl.
  unfold posts, query_events. rewrite omap_app.
  destruct (api_getGame api) as [[ | v | e] | ]; simpl;
    try (left; by rewrite app_nil_r).
  destruct (String.eqb v ""); simpl; [left; by rewrite app_nil_r|].
  right. eexists. by destruct (api_post api api_url _).
Qed.

(** The game version sent to the catalog is cut to three components. *)
Theorem getGameVersion_three_components api v w :
  api_getGame api = Some (VersionResolves v) -> v <> "" ->
  getGameVersion api w = (Ret (join "." (take 3 (split "." v))), w).
Proof.
  intros Hgame Hne. unfold getGameVersion. rewrite Hgame. unfold_m. simpl.
  by destruct (String.eqb_spec v "").
Qed.

Lemma getGameVersion_three_components_witness :
  getGameVersion (host [] (PostRejects "ECONNREFUSED")) world0 = (Ret "1.5.6", world0).
Proof.
  apply (getGameVersion_three_components (host [] (PostRejects "ECONNREFUSED")) "1.5.6.1").
  - reflexivity.
  - discriminate.
Defined.

(** ** [getManifestValue] on a manifest with the members of its interface *)

Lemma get_field_entry fields k :
  get_field fields k = default (inherited_member k) (entry k fields).
Proof.
  induction fields as [|[k' v] fields IH]; [done|].
  simpl. by destruct (String.eqb k' k).
Qed.

Lemma find_key_matches {mapping : CaseMapping} (fields : list (string * value)) k v :
  entry k fields = Some v ->
  (forall k', k' ∈ map fst fields -> key_matches k k' = true -> k' = k) ->
  List.find (key_matches k) (map fst fields) = Some k.
Proof.
  induction fields as [|[k' v'] fields IH]; [done|].
  simpl. intros Hentry Honly.
  destruct (key_matches k k') eqn:Hm.
  - f_equal. apply Honly; [left|done].
  - destruct (String.eqb_spec k' k) as [->|_].
    + unfold key_matches in Hm. by rewrite String.eqb_refl in Hm.
    + apply IH; [done|]. intros k'' Hin. apply Honly. by right.
Qed.

(** A member that is present, under a key no other key equals up to case, is
    returned as it is and nothing is logged. *)
Theorem getManifestValue_present {mapping : CaseMapping} fields k v w :
  k <> "" ->
  entry k fields = Some v ->
  (forall k', k' ∈ map fst fields -> key_matches k k' = true -> k' = k) ->
  getManifestValue (VObj fields) k w = (Ret v, w).
Proof.
  intros Hne Hentry Honly. unfold getManifestValue. simpl.
  rewrite get_field_entry, Hentry. simpl.
  destruct (truthy v); [done|].
  rewrite (find_key_matches _ _ _ Hentry Honly).
  destruct (String.eqb_spec k ""); [done|]. simpl.
  by rewrite get_field_entry, Hentry.
Qed.

Lemma getManifestValue_present_witness :
  getManifestValue (VObj [("UniqueID", VStr "B"); ("Version", VStr "")]) "Version" world0
  = (Ret (VStr ""), world0).
Proof.
  apply getManifestValue_present.
  - discriminate.
  - reflexivity.
  - intros k' Hin Hm. simpl in Hin.
    apply elem_of_cons in Hin as [->|Hin]; [by vm_compute in Hm|].
    by apply list_elem_of_singleton in Hin.
Defined.

(** A member that no key names, whatever the case, and that is not
    inherited from [Object.prototype] is reported and read as [undefined]. *)
Theorem getManifestValue_missing {mapping : CaseMapping} fields k w :
  (forall k', k' ∈ map fst fields -> key_matches k k' = false) ->
  is_inherited k = false ->
  getManifestValue (VObj fields) k w
  = (Ret VUndefined,
     mkWorld (w_heap w)
       (w_trace w ++ [EvLog "warn" "Could not find key on SMAPI mod manifest"])).
Proof.
  intros Hnone Hown. unfold getManifestValue. simpl.
  assert (entry k fields = None) as Hentry.
  { induction fields as [|[k' v'] fields IH]; [done|]. simpl.
    destruct (String.eqb_spec k' k) as [->|_].
    - specialize (Hnone k ltac:(left)). unfold key_matches in Hnone.
      by rewrite String.eqb_refl in Hnone.
    - apply IH. intros k'' Hin. apply Hnone. by right. }
  rewrite get_field_entry, Hentry. unfold inherited_member. rewrite Hown. simpl.
  assert (List.find (key_matches k) (map fst fields) = None) as ->; [|done].
  clear Hentry. induction fields as [|[k' v'] fields IH]; [done|]. simpl.
  rewrite (Hnone k' ltac:(left)). apply IH. intros k'' Hin. apply Hnone. by right.
Qed.

Lemma getManifestValue_missing_witness :
  getManifestValue (VObj [("UniqueID", VStr "B")]) "Version" world0
  = (Ret VUndefined,
     mkWorld ∅ [EvLog "warn" "Could not find key on SMAPI mod manifest"]).
Proof.
  apply (getManifestValue_missing [("UniqueID", VStr "B")] "Version" world0).
  - intros k' Hin. apply list_elem_of_singleton in Hin as ->. reflexivity.
  - reflexivity.
Defined.

(** The typed reading agrees with the lookup.  On an object that holds the
    key at most once up to case, [getManifestValue] returns and logs what
    [getManifestField] returns and logs for the own entry of the key. *)
Lemma getManifestField_getManifestValue {mapping : CaseMapping} fields key w :
  key <> "" ->
  is_inherited key = false ->
  (forall k', k' ∈ map fst fields -> key_matches key k' = true -> k' = key) ->
  getManifestValue (VObj fields) key w
  = (match fst (getManifestField key (entry key fields) w) with
     | Ret field => Ret (default VUndefined field)
     | Throw e => Throw e
     end,
     snd (getManifestField key (entry key fields) w)).
Proof.
  intros Hne Hown Honly. unfold getManifestValue, getManifestField. simpl.
  rewrite get_field_entry.
  destruct (entry key fields) as [v|] eqn:Hentry; simpl.
  - destruct (truthy v); [done|].
    rewrite (find_key_matches _ _ _ Hentry Honly).
    destruct (String.eqb_spec key ""); [done|]. simpl.
    by rewrite get_field_entry, Hentry.
  - unfold inherited_member. rewrite Hown. simpl.
    assert (List.find (key_matches key) (map fst fields) = None) as ->; [|done].
    destruct (List.find (key_matches key) (map fst fields)) as [k'|] eqn:E; [|done].
    apply List.find_some in E as [Hin Hm]. apply list_elem_of_In in Hin.
    rewrite (Honly k' Hin Hm) in Hin.
    apply list_elem_of_fmap in Hin as ([k'' v] & -> & Hin'). exfalso.
    clear -Hentry Hin'. induction fields as [|[k0 v0] fields IH]; [by apply elem_of_nil in Hin'|].
    simpl in Hentry. destruct (String.eqb_spec k0 k'') as [->|Hk]; [done|].
    apply elem_of_cons in Hin' as [[= <- <-]|Hin']; [done|by apply IH].
Qed.

(** ** Normalisation of a dependency declaration (C9) *)

(** The value [getManifestValue] returns. *)
Lemma getManifestValue_eq {mapping : CaseMapping} manifest key w :
  exists evs,
    getManifestValue manifest key w
    = (Ret (manifest_value manifest key), mkWorld (w_heap w) (w_trace w ++ evs)).
Proof.
  unfold getManifestValue, manifest_value. destruct w as [h t].
  destruct (truthy manifest); simpl; [|exists []; unfold_m; by rewrite app_nil_r].
  destruct (truthy (get_prop manifest key)); simpl;
    [exists []; unfold_m; by rewrite app_nil_r|].
  destruct (List.find _ _) as [keyMatch|]; [destruct (String.eqb keyMatch "")|]; simpl;
    unfold_m; simpl; eauto.
  exists []. by rewrite app_nil_r.
Qed.

Lemma normaliseDependencies_eq {mapping : CaseMapping} input w :
  fst (normaliseDependencies input w) = Ret (normalised input).
Proof.
  unfold normaliseDependencies, normalised.
  unfold mbind, M_bind.
  destruct (getManifestValue_eq input "UniqueID" w) as [e1 ->].
  destruct (getManifestValue_eq input "MinimumVersion" (mkWorld (w_heap w) (w_trace w ++ e1)))
    as [e2 ->].
  destruct (getManifestValue_eq input "isRequired"
              (mkWorld (w_heap w) ((w_trace w ++ e1) ++ e2))) as [e3 H3].
  simpl in H3 |- *. rewrite H3. unfold mret, M_ret. simpl.
  destruct (truthy (manifest_value input "UniqueID")); simpl; [|done].
  by destruct (truthy (manifest_value input "MinimumVersion")).
Qed.

(** C9 (the code departs from the claim).  A declared minimum version is not
    carried over: the result of normalising
    [{UniqueID: "B", MinimumVersion: "1.0.0", isRequired: true}] has no
    [MinimumVersion], and no result ever has a truthy one. *)
Theorem normaliseDependencies_drops_MinimumVersion :
  fst (normaliseDependencies
         (VObj [("UniqueID", VStr "B"); ("MinimumVersion", VStr "1.0.0");
                ("isRequired", VBool true)]) world0)
  = Ret (VObj [("UniqueID", VStr "B"); ("isRequired", VBool true)]) /\
  forall input w,
    exists result,
      fst (normaliseDependencies input w) = Ret result /\
      truthy (get_prop result "MinimumVersion") = false.
Proof.
  split; [vm_compute; reflexivity|].
  intros input w. eexists. split; [apply normaliseDependencies_eq|].
  unfold normalised.
  destruct (truthy (manifest_value input "UniqueID")); [|done].
  destruct (truthy (manifest_value input "MinimumVersion")) eqn:E; simpl; [done|].
  by rewrite E.
Qed.

(** What the claim says of the other members holds: the id is carried,
    [isRequired] defaults to [false], and a declaration without an id is
    dropped. *)
Lemma normaliseDependencies_other_members {mapping : CaseMapping} input w :
  exists result,
    fst (normaliseDependencies input w) = Ret result /\
    if truthy (manifest_value input "UniqueID")
    then get_prop result "UniqueID" = manifest_value input "UniqueID" /\
         get_prop result "isRequired"
         = js_or (manifest_value input "isRequired") (VBool false)
    else result = VUndefined.
Proof.
  eexists. split; [apply normaliseDependencies_eq|].
  unfold normalised. by destruct (truthy (manifest_value input "UniqueID")).
Qed.

(** ** Resolution (C1, C2, C8, C10) *)

Section ResolverClaims.

Context {mapping : CaseMapping}.

Variable semver_coerce : string -> option string.
Variable semver_satisfies : string -> string -> bool.

Local Abbreviation local_match' := (local_match semver_coerce semver_satisfies).
Local Abbreviation mapDependencies' := (mapDependencies semver_coerce semver_satisfies).
Local Abbreviation resolution' := (resolution semver_coerce semver_satisfies).
Local Abbreviation catalog_response' := (catalog_response semver_coerce semver_satisfies).
Local Abbreviation missing_of' := (missing_of semver_coerce semver_satisfies).




Lemma rule_for_type d r : rule_for d r -> rule_type r = Some (rule_kind d).
Proof. intros [[found ->]|[[smapiInfo ->]| ->]]; reflexivity. Qed.

Lemma rule_for_extra d r extra :
  rule_for d r -> rule_extra r = Some extra ->
  extra_required extra = js_or (dep_isRequired d) (VBool false).
Proof. intros [[found ->]|[[smapiInfo ->]| ->]]; simpl; intros [= <-]; done. Qed.

Lemma locals_of_matched modArray deps :
  Forall2 rule_for
    (matched_of semver_coerce semver_satisfies modArray deps)
    (locals_of semver_coerce semver_satisfies modArray deps).
Proof.
  unfold matched_of, locals_of, unmatched.
  induction deps as [|d deps IH]; simpl; [constructor|].
  destruct (local_match' modArray d) as [found|]; simpl; [|exact IH].
  constructor; [|exact IH]. left. by exists found.
Qed.

Lemma rule_for_type_extra d r :
  rule_for d r ->
  rule_type r
  = Some (match dep_isRequired d with
          | VBool true => "requires"
          | _ => "recommends"
          end) /\
  match rule_extra r with
  | Some extra =>
      extra_required extra
      = if truthy (dep_isRequired d) then dep_isRequired d else VBool false
  | None => True
  end.
Proof.
  intros Hfor. split.
  - rewrite (rule_for_type _ _ Hfor). unfold rule_kind, is_true.
    by destruct (dep_isRequired d) as [| |[|]| | | | |].
  - destruct (rule_extra r) as [extra|] eqn:E; [|done].
    by rewrite (rule_for_extra _ _ _ Hfor E).
Qed.

(** The working set holds, for each id that is declared and not empty, the
    first declaration with exactly that id, and no id twice (ids are compared
    as they are written); every emitted rule is a rule of a member of the
    working set. *)
Theorem dedup_exact_first_wins api mods deps w :
  NoDup (dep_UniqueID <$> filteredDependencies deps) /\
  (forall d,
     d ∈ filteredDependencies deps <->
     exists u, u <> "" /\ dep_UniqueID d = Some u /\ first_with deps u = Some d) /\
  exists rules w',
    mapDependencies' api mods deps w = (Ret rules, w') /\
    Forall (fun r => exists d, d ∈ filteredDependencies deps /\ rule_for d r) rules.
Proof.
  split; [apply filteredDependencies_NoDup|].
  split; [apply elem_of_filteredDependencies|].
  eexists _, _. split; [apply mapDependencies_eq|].
  apply Forall_forall. intros r Hr. by apply resolution_rule_for in Hr.
Qed.

End ResolverClaims.

(** C10.  The rules come in the order of their declarations: first those of
    the members of the working set with a local match, then those of the
    members without one (when reading the catalog's answer throws, the
    latter alone).  The type of each rule is [requires] when its own
    declaration's [isRequired] is the boolean [true] and [recommends] for
    every other value, while [extra.required], where the rule has it, is that
    [isRequired] itself when it is truthy; for [isRequired: "true"] and a
    catalog that answers with the entry [d], the rule is of type [recommends]
    with a truthy [extra.required]. *)
Theorem rule_type_strict_extra_truthy {mapping : CaseMapping} coerce satisfies api mods deps w :
  (exists rules w' declarations,
     mapDependencies coerce satisfies api mods deps w = (Ret rules, w') /\
     (declarations
      = matched_of coerce satisfies (map snd mods) (filteredDependencies deps)
        ++ missing_of coerce satisfies (map snd mods) (filteredDependencies deps) \/
      declarations = missing_of coerce satisfies (map snd mods) (filteredDependencies deps)) /\
     Forall2
       (fun d r =>
          rule_type r
          = Some (match dep_isRequired d with
                  | VBool true => "requires"
                  | _ => "recommends"
                  end) /\
          match rule_extra r with
          | Some extra =>
              extra_required extra
              = if truthy (dep_isRequired d) then dep_isRequired d else VBool false
          | None => True
          end)
       declarations rules) /\
  (exists r,
     fst (mapDependencies (mapping := ascii_case) coerce satisfies
            (host [] (PostResolves (DataArray [catalog_D]))) [] [stringly_D] world0)
     = Ret [r] /\
     rule_type r = Some "recommends" /\
     extra_required <$> rule_extra r = Some (VStr "true") /\
     truthy (VStr "true") = true).
Proof.
  split.
  - rewrite mapDependencies_eq.
    pose proof (locals_of_matched coerce satisfies (map snd mods) (filteredDependencies deps)) as Hlocal.
    unfold resolution.
    destruct (catalog_response coerce satisfies api (map snd mods) deps) as [items|].
    + eexists _, _, _. split; [reflexivity|]. split; [by left|]. apply Forall2_app.
      * eapply Forall2_impl; [exact Hlocal|]. apply rule_for_type_extra.
      * apply Forall2_fmap_r, Forall_Forall2_diag, Forall_forall.
        intros d _. apply rule_for_type_extra. unfold resolve_missing.
        destruct (catalog_entry items d) as [smapiInfo|].
        -- right. left. by exists smapiInfo.
        -- by right; right.
    + destruct (missing_of coerce satisfies (map snd mods) (filteredDependencies deps)) as [|d0 l] eqn:E.
      * eexists _, _, _. split; [reflexivity|]. split; [by left|]. rewrite app_nil_r.
        eapply Forall2_impl; [exact Hlocal|]. apply rule_for_type_extra.
      * eexists _, _, (d0 :: l). split; [reflexivity|]. split; [by right|].
        apply Forall2_fmap_r, Forall_Forall2_diag, Forall_forall.
        intros d _. apply rule_for_type_extra. by right; right.
  - eexists. split; [vm_compute; reflexivity|]. by vm_compute.
Qed.


(** C2 (the code departs from the claim).  The two declarations
    [{UniqueID: "Foo.Mod", isRequired: false}] and
    [{UniqueID: "foo.mod", isRequired: true}], whose ids differ in letter
    case only, are both kept in the working set, and each gets a rule of its
    own kind: a [recommends] and a [requires] rule, where the claim has one
    [recommends] rule.  [new Set] and [d.UniqueID === cur] compare the ids as
    they are written, while the catalog's answer is searched ignoring
    case. *)
Lemma dedup_is_case_sensitive :
  filteredDependencies [optional_Foo; required_foo] = [optional_Foo; required_foo] /\
  fst (mapDependencies Semver.coerce Semver.satisfies (host [] (PostResolves (DataArray [])))
         [] [optional_Foo; required_foo] world0)
  = Ret [unresolved_rule optional_Foo; unresolved_rule required_foo] /\
  rule_type (unresolved_rule optional_Foo) = Some "recommends" /\
  rule_type (unresolved_rule required_foo) = Some "requires".
Proof. vm_compute. by split_and!. Qed.

(** With the same id written twice, the first declaration alone is
    resolved. *)
Example exact_duplicate_first_wins :
  fst (mapDependencies Semver.coerce Semver.satisfies (host [] (PostResolves (DataArray [])))
         [] [optional_Foo; required_Foo] world0)
  = Ret [unresolved_rule optional_Foo].
Proof. vm_compute. reflexivity. Qed.

(** C1 (the code departs from the claim).  When reading the catalog's answer
    throws, [mapDependencies] returns the rules of the dependencies without a
    local match only: the rule of the installed dependency [B] is lost, which
    the path without an exception keeps.  [getModDependencies] returns no
    rule for an installed dependency even when the query succeeds, and it
    throws on a declaration without an id when a mod with SMAPI ids is
    installed. *)
Theorem resolution_drops_local_rules :
  let mods := [("mod-b", mod_b)] in
  let deps := [requires_B; recommends_C] in
  let installed_ids := [("mod-b", mod_b_ids)] in
  let manifest declared :=
    VObj [("UniqueID", VStr "A"); ("Dependencies", VArr [VObj declared])] in
  filteredDependencies deps = deps /\
  fst (mapDependencies Semver.coerce Semver.satisfies (host mods (PostResolves DataOther))
         mods deps world0)
  = Ret [unresolved_rule recommends_C] /\
  fst (mapDependencies Semver.coerce Semver.satisfies (host mods (PostResolves (DataArray [])))
         mods deps world0)
  = Ret [local_rule requires_B mod_b; unresolved_rule recommends_C] /\
  fst (getModDependencies (host installed_ids (PostResolves (DataArray [])))
         (manifest [("UniqueID", VStr "B"); ("isRequired", VBool true)]) world0)
  = Ret [] /\
  is_Ret (fst (getModDependencies (host installed_ids (PostResolves (DataArray [])))
                 (manifest [("UniqueID", VStr "")]) world0))
  = false.
Proof. vm_compute. by split_and!. Qed.

(** [mapDependencies] returns on every input and leaves the arrays of the
    state as they are. *)
Theorem mapDependencies_returns {mapping : CaseMapping} coerce satisfies api mods deps w :
  exists rules w',
    mapDependencies coerce satisfies api mods deps w = (Ret rules, w') /\
    w_heap w' = w_heap w.
Proof. eexists _, _. split; [apply mapDependencies_eq|done]. Qed.

(** When the query fails or the catalog answers with an array, the result
    holds exactly one rule for each member of the working set: the rule of
    the installed mod where one matches, else the rule of the catalog entry
    or the unresolved rule. *)
Theorem one_rule_per_dependency {mapping : CaseMapping} coerce satisfies api mods deps items w :
  catalog_response coerce satisfies api (map snd mods) deps = DataArray items ->
  exists rules w',
    mapDependencies coerce satisfies api mods deps w = (Ret rules, w') /\
    rules ≡ₚ map (resolve_one coerce satisfies (map snd mods) items) (filteredDependencies deps) /\
    List.length rules = List.length (new_Set (declared_ids deps)).
Proof.
  intros Hresp. eexists _, _. split; [apply mapDependencies_eq|].
  pose proof (resolution_Permutation coerce satisfies _ _ _ _ Hresp) as Hperm.
  split; [done|].
  rewrite Hperm, length_map.
  rewrite <- (length_fmap dep_UniqueID), filteredDependencies_ids. by rewrite length_fmap.
Qed.

Lemma one_rule_per_dependency_witness :
  exists rules w',
    mapDependencies Semver.coerce Semver.satisfies
      (host [("mod-b", mod_b)] (PostRejects "ECONNREFUSED")) [("mod-b", mod_b)]
      [requires_B; recommends_C; requires_B_1_0_0] world0 = (Ret rules, w') /\
    rules ≡ₚ [local_rule requires_B mod_b; unresolved_rule recommends_C] /\
    List.length rules = 2.
Proof.
  apply (one_rule_per_dependency Semver.coerce Semver.satisfies
           (host [("mod-b", mod_b)] (PostRejects "ECONNREFUSED")) [("mod-b", mod_b)]
           [requires_B; recommends_C; requires_B_1_0_0] [] world0).
  reflexivity.
Defined.

(** One call of [mapDependencies] posts at most one request, however many
    dependencies have no local match. *)
Theorem mapDependencies_at_most_one_post {mapping : CaseMapping} coerce satisfies api mods deps w :
  exists rules w',
    mapDependencies coerce satisfies api mods deps w = (Ret rules, w') /\
    (posts (w_trace w') = posts (w_trace w) \/
     exists request, posts (w_trace w') = posts (w_trace w) ++ [request]).
Proof.
  eexists _, _. split; [apply mapDependencies_eq|]. simpl.
  unfold posts, resolution_events, query_events. rewrite !omap_app.
  assert (forall (resp : ResponseData) (missing : list Dependency),
            omap (fun e => match e with EvPost _ data => Some data | _ => None end)
              match resp, missing with
              | DataOther, _ :: _ => [EvLog "error" "Could not get dependency data from SMAPI"]
              | _, _ => []
              end = []) as ->.
  { intros [items|] [|d l]; done. }
  rewrite app_nil_r.
  destruct (api_getGame api) as [[ | v | e] | ]; simpl;
    try (left; by rewrite app_nil_r).
  destruct (String.eqb v ""); simpl; [left; by rewrite app_nil_r|].
  right. eexists. by destruct (api_post api api_url _).
Qed.

(** ** Matching a minimum version (C3) *)

(** The range the resolver hands to [semver.satisfies] is the coerced
    version followed by a caret. *)
Lemma accepts_minimum_version coerce satisfies d depName m minimum installedVersion :
  dep_MinimumVersion d = Some minimum -> minimum <> "" ->
  (manifest ← manifest_of depName m; m_Version manifest) = Some installedVersion ->
  installedVersion <> "" ->
  accepts coerce satisfies d depName m
  = satisfies installedVersion (default "null" (coerce minimum) +:+ "^").
Proof.
  intros Hmin Hne Hver Hne'. unfold accepts, version_range.
  rewrite Hmin, Hver. simpl.
  destruct (String.eqb_spec minimum ""); [done|].
  by destruct (String.eqb_spec installedVersion "").
Qed.

Lemma split_from_caret t cur :
  exists init last,
    split_from "." cur t = init ++ [last] /\
    split_from "." cur (t +:+ "^") = init ++ [last +:+ "^"].
Proof.
  revert cur. induction t as [|c t IH]; intros cur; simpl.
  - by exists [], cur.
  - destruct (Ascii.eqb c ".").
    + destruct (IH "") as (init & last & -> & ->). by exists (cur :: init), last.
    + apply IH.
Qed.

Lemma numeric_caret s : Semver.numeric (s +:+ "^") = None.
Proof.
  assert (forall t, Semver.all_digits (t +:+ "^") = false) as H.
  { induction t as [|c t IH]; simpl; [done|]. rewrite IH. apply andb_false_r. }
  destruct s as [|c s]; [done|].
  unfold Semver.numeric. change (String c s +:+ "^") with (String c (s +:+ "^")).
  change (Semver.all_digits (String c (s +:+ "^")))
    with (Semver.is_digit c && Semver.all_digits (s +:+ "^")).
  rewrite H, andb_false_r. done.
Qed.

Lemma parse_caret s : Semver.parse (s +:+ "^") = None.
Proof.
  unfold Semver.parse, split.
  destruct (split_from_caret s "") as (init & last & _ & ->).
  destruct init as [|a [|b [|c init]]]; simpl; try done.
  - destruct (Semver.numeric a); simpl; [|done].
    destruct (Semver.numeric b); simpl; [|done].
    by rewrite numeric_caret.
  - by destruct init.
Qed.

(** No range of the model ends with a caret. *)
Lemma satisfies_caret_suffix version s : Semver.satisfies version (s +:+ "^") = false.
Proof.
  unfold Semver.satisfies.
  assert (Semver.parse_range (s +:+ "^") = None) as ->; [|by destruct (Semver.parse version)].
  destruct s as [|c s]; [done|].
  change (String c s +:+ "^") with (String c (s +:+ "^")).
  unfold Semver.parse_range.
  assert (String.eqb (String c (s +:+ "^")) "*" = false) as ->.
  { simpl. destruct (Ascii.eqb c "*"); [|done]. by destruct s. }
  destruct (Ascii.eqb c "^").
  - by rewrite parse_caret.
  - change (String c (s +:+ "^")) with (String c s +:+ "^"). by rewrite parse_caret.
Qed.

(** Under the model of [semver], a dependency that declares a minimum
    version is matched to no installed mod, whatever is installed. *)
Lemma local_match_minimum_version coerce modArray d :
  truthy_str (dep_MinimumVersion d) = true ->
  local_match coerce Semver.satisfies modArray d = None.
Proof.
  intros Hmin. unfold local_match.
  set (candidates := List.filter _ modArray). clearbody candidates.
  destruct candidates as [|m0 rest] eqn:E; [done|]. rewrite <- E. clear E.
  assert (forall m, accepts coerce Semver.satisfies d (or_empty (dep_UniqueID d)) m = false)
    as Hno.
  { intros m. unfold accepts, version_range. rewrite Hmin. simpl.
    match goal with |- context [negb ?b] => destruct b end; simpl; [|done].
    apply satisfies_caret_suffix. }
  induction candidates as [|m l IH]; [done|].
  simpl. by rewrite Hno.
Qed.

(** C3 (the code departs from the claim).  An installed manifest of version
    [1.2.0] is not matched to a dependency with the minimum version [1.0.0]:
    the range handed to [semver.satisfies] is [1.0.0^], which is no range,
    where the caret range [^1.0.0] is satisfied; the dependency goes to the
    catalog instead of getting the rule of the installed mod. *)
Theorem minimum_version_is_never_matched_locally :
  let mods := [("mod-b", mod_b)] in
  version_range Semver.coerce "1.0.0" = "1.0.0^" /\
  Semver.satisfies "1.2.0" "1.0.0^" = false /\
  Semver.satisfies "1.2.0" "^1.0.0" = true /\
  local_match Semver.coerce Semver.satisfies [mod_b] requires_B_1_0_0 = None /\
  local_match Semver.coerce Semver.satisfies [mod_b] requires_B = Some mod_b /\
  fst (mapDependencies Semver.coerce Semver.satisfies (host mods (PostResolves (DataArray [])))
         mods [requires_B_1_0_0] world0)
  = Ret [unresolved_rule requires_B_1_0_0].
Proof. vm_compute. by split_and!. Qed.

(** ** Reconciliation (C4, C5) *)

(** Rules of installed dependencies are never matched for removal by rules of
    installed dependencies: the filter compares the [id] of a new rule with
    the [fileExpression] of a stored one. *)
Lemma rulesToRemove_local_rules existing mapped :
  Forall (fun r => ref_fileExpression (rule_reference r) = None) existing ->
  Forall (fun mr => is_Some (ref_id (rule_reference mr))) mapped ->
  rulesToRemove existing mapped = [].
Proof.
  intros Hex Hmap. unfold rulesToRemove.
  induction Hex as [|r existing Hr _ IH]; [done|].
  simpl. rewrite IH.
  replace (List.find _ mapped) with (@None Rule); [done|].
  symmetry. clear IH. induction Hmap as [|mr mapped [i Hi] _ IH]; [done|].
  simpl. rewrite Hi. rewrite bool_decide_eq_false_2 by by rewrite Hr. exact IH.
Qed.

Lemma rulesToRemove_local_rules_witness :
  rulesToRemove [local_rule requires_B mod_b] [local_rule requires_B mod_b] = [].
Proof.
  apply rulesToRemove_local_rules; repeat constructor. by eexists.
Defined.

(** C4 (the code departs from the claim).  The owner ["mod-a"] requires [B],
    which is installed.  The first run adds the rule of [B]; the second run,
    with that rule stored, removes nothing and adds the rule again. *)
Theorem second_run_removes_nothing :
  let stored := stored_at_1 [requires_B] in
  let added := local_rule requires_B mod_b in
  let run rules :=
    dispatches (w_trace (snd (modToggled Semver.coerce Semver.satisfies
                                (host (owner_state None 1%positive rules) (PostResolves (DataArray [])))
                                "profile-1" "mod-a" stored))) in
  run None = [[]; [addModRule GAME_ID "mod-a" added]] /\
  run (Some [added]) = [[]; [addModRule GAME_ID "mod-a" added]] /\
  rulesToRemove [added] [added] = [].
Proof. vm_compute. by split_and!. Qed.

(** With the rule of an installed and of an unknown dependency stored, the
    second run removes the former (a new rule without [id] matches every
    stored rule without [fileExpression]) and keeps the latter. *)
Example second_run_mixed :
  let added := [local_rule requires_B mod_b; unresolved_rule recommends_C] in
  rulesToRemove added added = [local_rule requires_B mod_b].
Proof. vm_compute. reflexivity. Qed.

(** C5 (the code departs from the claim).  The owner ["mod-a"] is a content
    pack for [B] and its stored manifest keeps an empty [Dependencies] array
    at [1].  Each call of [modToggled] pushes the dependency on the content
    pack's target into that stored array. *)
Theorem modToggled_pushes_into_stored_dependencies :
  let api := host (owner_state (Some (mkContentPackFor (Some "B"))) 1%positive None)
               (PostResolves (DataArray [])) in
  let stored := stored_at_1 [] in
  let once := snd (modToggled Semver.coerce Semver.satisfies api "profile-1" "mod-a" stored) in
  let twice := snd (modToggled Semver.coerce Semver.satisfies api "profile-1" "mod-a" once) in
  w_heap stored !! 1%positive = Some [] /\
  w_heap once !! 1%positive = Some [requires_B] /\
  w_heap twice !! 1%positive = Some [requires_B; requires_B].
Proof. vm_compute. by split_and!. Qed.

(** Where no manifest of the toggled mod is a content pack and each keeps
    its [Dependencies], the arrays are left as they are. *)
Lemma reconcile_manifest_frame {mapping : CaseMapping} coerce satisfies api mods owner manifest p w :
  m_ContentPackFor manifest = None ->
  m_Dependencies manifest = Some p ->
  w_heap (snd (reconcile_manifest coerce satisfies api mods owner manifest w)) = w_heap w.
Proof.
  intros Hcp Hdeps. unfold reconcile_manifest, new_SMAPIManifestClass.
  rewrite Hcp, Hdeps. unfold getManifestField.
  unfold mbind at 1, M_bind at 1.
  repeat match goal with
         | |- context [match ?f with Some _ => _ | None => _ end] =>
             is_var f; destruct f
         | |- context [match ?f ?x with Some _ => _ | None => _ end] =>
             destruct (f x)
         end;
    unfold_m; unfold read_array; simpl;
    rewrite mapDependencies_eq; simpl;
    destruct (resolution _ _ _ _ _); simpl; done.
Qed.

Lemma for_each_frame {A} (body : A -> M unit) (l : list A) (w : World) :
  (forall x w, x ∈ l -> w_heap (snd (body x w)) = w_heap w) ->
  w_heap (snd (for_each body l w)) = w_heap w.
Proof.
  revert w. induction l as [|x l IH]; intros w Hbody; [done|].
  simpl. unfold mbind, M_bind.
  pose proof (Hbody x w ltac:(left)) as Hx.
  destruct (body x w) as [[[]|e] w1]; simpl in *; [|done].
  rewrite IH; [done|]. intros y w2 Hy. apply Hbody. by right.
Qed.

(** Where no stored manifest of the toggled mod is a content pack and each
    keeps a [Dependencies] array, [modToggled] leaves every array of the
    state as it is. *)
Theorem modToggled_frame {mapping : CaseMapping} coerce satisfies api profileId modId w :
  (forall mod_ manifests id manifest,
     entry modId (default [] (st_mods (api_getState api))) = Some mod_ ->
     mod_attr attr_smapiManifests mod_ = Some manifests ->
     (id, manifest) ∈ manifests ->
     m_ContentPackFor manifest = None /\ is_Some (m_Dependencies manifest)) ->
  w_heap (snd (modToggled coerce satisfies api profileId modId w)) = w_heap w.
Proof.
  intros Hplain. unfold modToggled.
  case_bool_decide; simpl; [|done].
  destruct (entry modId _) as [mod_|] eqn:Hmod; [|done].
  destruct (mod_attr attr_smapiManifests mod_) as [[|m l]|] eqn:Hman; try done.
  apply for_each_frame. intros manifest w1 Hin.
  apply list_elem_of_fmap in Hin as ([id manifest'] & -> & Hin).
  destruct (Hplain _ _ _ _ eq_refl Hman Hin) as [Hcp [p Hp]].
  by apply (reconcile_manifest_frame _ _ _ _ _ _ p).
Qed.

Lemma modToggled_frame_witness :
  w_heap (snd (modToggled Semver.coerce Semver.satisfies
                 (host (owner_state None 1%positive None) (PostResolves (DataArray [])))
                 "profile-1" "mod-a" (stored_at_1 [requires_B])))
  = w_heap (stored_at_1 [requires_B]).
Proof.
  apply modToggled_frame.
  intros mod_ manifests id manifest [= <-] [= <-] Hin.
  apply list_elem_of_singleton in Hin as [= -> ->]. split; [done|by eexists].
Defined.

(** [modToggled] does nothing for a profile of another game, for a mod the
    state does not hold, and for a mod without stored manifests. *)
Theorem modToggled_nothing_to_reconcile {mapping : CaseMapping} coerce satisfies api profileId modId w :
  (profile_gameId <$> entry profileId (st_profiles (api_getState api)) <> Some GAME_ID \/
   (mod_ ← entry modId (default [] (st_mods (api_getState api)));
    mod_attr attr_smapiManifests mod_) = None \/
   (mod_ ← entry modId (default [] (st_mods (api_getState api)));
    mod_attr attr_smapiManifests mod_) = Some []) ->
  modToggled coerce satisfies api profileId modId w = (Ret tt, w).
Proof.
  intros H. unfold modToggled.
  case_bool_decide as Hp; simpl; [|done].
  destruct H as [H|H]; [done|].
  destruct (entry modId _) as [mod_|]; simpl in *; [|done].
  destruct (mod_attr attr_smapiManifests mod_) as [[|m l]|]; try done.
  destruct H as [H|H]; discriminate.
Qed.

Lemma modToggled_nothing_to_reconcile_witness :
  modToggled Semver.coerce Semver.satisfies
    (host [("mod-b", mod_b_ids)] (PostRejects "ECONNREFUSED")) "profile-1" "mod-b" world0
  = (Ret tt, world0).
Proof.
  apply modToggled_nothing_to_reconcile. right. left. reflexivity.
Defined.

(** ** [getModDependencies] *)

(** A dependency the catalog does not know leaves [undefined] in the
    result. *)
Example getModDependencies_unanswered :
  fst (getModDependencies (host [("mod-b", mod_b_ids)] (PostResolves (DataArray [])))
         (VObj [("UniqueID", VStr "A");
                ("Dependencies", VArr [VObj [("UniqueID", VStr "C")]])])
         world0)
  = Ret [None].
Proof. vm_compute. reflexivity. Qed.


(** * Further properties *)

(** ** Declarations that do not count *)

Lemma new_Set_fold_NoDup (l acc : list string) :
  NoDup (acc ++ l) -> fold_left Set_add l acc = acc ++ l.
Proof.
  revert acc. induction l as [|x l IH]; intros acc Hnd; simpl.
  - by rewrite app_nil_r.
  - unfold Set_add at 2. rewrite bool_decide_eq_false_2.
    + rewrite IH; rewrite <- app_assoc; done.
    + apply NoDup_app in Hnd as (_ & Hdisj & _). intros Hx. apply (Hdisj x Hx). left.
Qed.

Lemma new_Set_NoDup_id l : NoDup l -> new_Set l = l.
Proof. intros H. unfold new_Set. by rewrite new_Set_fold_NoDup. Qed.

Lemma first_with_app_r pre l u :
  Some u ∉ dep_UniqueID <$> pre -> first_with (pre ++ l) u = first_with l u.
Proof.
  induction pre as [|d pre IH]; intros Hnot; [done|].
  unfold first_with in *. simpl.
  rewrite bool_decide_eq_false_2.
  - apply IH. intros Hin. apply Hnot. by right.
  - intros Hd. apply Hnot. rewrite <- Hd. left.
Qed.

Lemma omap_first_with_self pre l :
  NoDup (dep_UniqueID <$> (pre ++ l)) ->
  Forall (fun d => is_Some (dep_UniqueID d)) l ->
  omap (first_with (pre ++ l)) (omap dep_UniqueID l) = l.
Proof.
  revert pre. induction l as [|d l IH]; intros pre Hnd Hids; [done|].
  inversion Hids as [|? ? [u Hu] Hids']; subst. simpl. rewrite Hu. simpl.
  assert (first_with (pre ++ d :: l) u = Some d) as ->.
  { rewrite first_with_app_r.
    - unfold first_with. simpl. by rewrite bool_decide_eq_true_2.
    - rewrite fmap_app in Hnd. apply NoDup_app in Hnd as (_ & Hdisj & _).
      intros Hin. apply (Hdisj _ Hin). rewrite <- Hu. left. }
  f_equal. specialize (IH (pre ++ [d])). rewrite <- app_assoc in IH. simpl in IH.
  by apply IH.
Qed.

Lemma declared_ids_all l :
  Forall (fun d => truthy_str (dep_UniqueID d) = true) l ->
  declared_ids l = omap dep_UniqueID l.
Proof.
  intros H. unfold declared_ids. f_equal.
  induction H as [|d l Hd _ IH]; [done|]. simpl. by rewrite Hd, IH.
Qed.

Lemma omap_Some_fmap (l : list Dependency) :
  Forall (fun d => is_Some (dep_UniqueID d)) l ->
  Some <$> omap dep_UniqueID l = dep_UniqueID <$> l.
Proof.
  induction 1 as [|d l [u Hu] _ IH]; [done|]. simpl. rewrite Hu. simpl. f_equal. exact IH.
Qed.

(** A list without repeated or empty ids is its own working set. *)
Lemma filteredDependencies_fixed l :
  NoDup (dep_UniqueID <$> l) ->
  Forall (fun d => truthy_str (dep_UniqueID d) = true) l ->
  filteredDependencies l = l.
Proof.
  intros Hnd Ht.
  assert (Forall (fun d => is_Some (dep_UniqueID d)) l) as Hs.
  { eapply Forall_impl; [exact Ht|]. intros d Hd. simpl in Hd. destruct (dep_UniqueID d); [by eexists|discriminate]. }
  rewrite filteredDependencies_eq. rewrite (declared_ids_all l Ht).
  rewrite new_Set_NoDup_id.
  - by apply (omap_first_with_self []).
  - apply (NoDup_fmap_1 Some). by rewrite omap_Some_fmap.
Qed.

Lemma filteredDependencies_truthy deps :
  Forall (fun d => truthy_str (dep_UniqueID d) = true) (filteredDependencies deps).
Proof.
  apply Forall_forall. intros d (u & Hne & Hu & _)%elem_of_filteredDependencies.
  rewrite Hu. by apply truthy_str_Some.
Qed.

Lemma filteredDependencies_idemp deps :
  filteredDependencies (filteredDependencies deps) = filteredDependencies deps.
Proof.
  apply filteredDependencies_fixed;
    [apply filteredDependencies_NoDup|apply filteredDependencies_truthy].
Qed.

(** Resolving the working set gives what resolving the declarations gives:
    repeated declarations and declarations without an id change nothing. *)
Lemma mapDependencies_of_working_set {mapping : CaseMapping} coerce satisfies api mods deps w :
  mapDependencies coerce satisfies api mods (filteredDependencies deps) w
  = mapDependencies coerce satisfies api mods deps w.
Proof. unfold mapDependencies. by rewrite filteredDependencies_idemp. Qed.

Lemma first_with_skip l1 d l2 u :
  truthy_str (dep_UniqueID d) = false -> u <> "" ->
  first_with (l1 ++ d :: l2) u = first_with (l1 ++ l2) u.
Proof.
  intros Hd Hu. unfold first_with.
  induction l1 as [|x l1 IH]; simpl.
  - rewrite bool_decide_eq_false_2; [done|].
    intros E. rewrite E in Hd. apply truthy_str_Some in Hu. congruence.
  - by rewrite IH.
Qed.

Lemma filteredDependencies_skip l1 d l2 :
  truthy_str (dep_UniqueID d) = false ->
  filteredDependencies (l1 ++ d :: l2) = filteredDependencies (l1 ++ l2).
Proof.
  intros Hd. rewrite !filteredDependencies_eq.
  assert (declared_ids (l1 ++ d :: l2) = declared_ids (l1 ++ l2)) as E.
  { unfold declared_ids. rewrite !List.filter_app. simpl. by rewrite Hd. }
  rewrite E. apply list_omap_ext. apply Forall_Forall2_diag, Forall_forall.
  intros u Hu. rewrite elem_of_new_Set, elem_of_declared_ids in Hu.
  destruct Hu as (_ & _ & _ & Hne). by apply first_with_skip.
Qed.

(** A declaration whose id is missing or empty is ignored, wherever it
    stands. *)
Theorem mapDependencies_ignores_missing_id {mapping : CaseMapping} coerce satisfies api mods l1 d l2 w :
  truthy_str (dep_UniqueID d) = false ->
  mapDependencies coerce satisfies api mods (l1 ++ d :: l2) w
  = mapDependencies coerce satisfies api mods (l1 ++ l2) w.
Proof. intros Hd. unfold mapDependencies. by rewrite filteredDependencies_skip. Qed.

Lemma mapDependencies_ignores_missing_id_witness :
  mapDependencies Semver.coerce Semver.satisfies
    (host [("mod-b", mod_b)] (PostResolves (DataArray [])))
    [("mod-b", mod_b)] ([requires_B] ++ no_id :: [recommends_C]) world0
  = mapDependencies Semver.coerce Semver.satisfies
      (host [("mod-b", mod_b)] (PostResolves (DataArray [])))
      [("mod-b", mod_b)] ([requires_B] ++ [recommends_C]) world0.
Proof.
  apply mapDependencies_ignores_missing_id. reflexivity.
Defined.

(** ** The rule of one dependency *)

Section LocalAndRemote.

Context {mapping : CaseMapping}.

Variable semver_coerce : string -> option string.
Variable semver_satisfies : string -> string -> bool.

Local Abbreviation local_match' := (local_match semver_coerce semver_satisfies).
Local Abbreviation mapDependencies' := (mapDependencies semver_coerce semver_satisfies).
Local Abbreviation resolution' := (resolution semver_coerce semver_satisfies).
Local Abbreviation catalog_response' := (catalog_response semver_coerce semver_satisfies).
Local Abbreviation missing_of' := (missing_of semver_coerce semver_satisfies).
Local Abbreviation locals_of' := (locals_of semver_coerce semver_satisfies).

Lemma catalog_response_array api modArray deps :
  answers_arrays api -> exists items, catalog_response' api modArray deps = DataArray items.
Proof.
  intros Harr. unfold catalog_response, query_answer.
  destruct (api_getGame api) as [[ | v | e] | ]; simpl; eauto.
  destruct (String.eqb v ""); simpl; eauto.
  destruct (api_post api api_url _) as [[items|]|] eqn:E; simpl; eauto.
  by apply Harr in E.
Qed.


(** Without a minimum version, a dependency is matched to the first mod, in
    the order of the state, that bundles a manifest under exactly its id. *)
Lemma local_match_first modArray d u pre m post :
  dep_UniqueID d = Some u -> u <> "" ->
  truthy_str (dep_MinimumVersion d) = false ->
  modArray = pre ++ m :: post ->
  Forall (fun m' => manifest_of u m' = None) pre ->
  is_Some (manifest_of u m) ->
  local_match' modArray d = Some m.
Proof.
  intros Hu Hne Hmin -> Hpre Hm. unfold local_match, or_empty.
  rewrite Hu. apply truthy_str_Some in Hne as Ht. rewrite Ht. simpl.
  rewrite List.filter_app. simpl. rewrite bool_decide_eq_true_2 by done.
  assert (List.filter (fun m0 => bool_decide (is_Some (manifest_of u m0))) pre = []) as ->.
  { induction Hpre as [|y pre Hy _ IH]; [done|]. simpl. rewrite Hy.
    rewrite bool_decide_eq_false_2; [done|]. by intros [? ?]. }
  simpl. unfold accepts. by rewrite Hmin.
Qed.

(** A dependency without a minimum version gets the rule of the first
    mod, in the order of the state, for which [smapiManifests?.[UniqueID]] is
    defined (a stored manifest, or a member that [smapiManifests] inherits),
    whenever the catalog does not answer with a body that is no array. *)
Theorem installed_dependency_gets_local_rule api mods deps d u pre m post w :
  d ∈ filteredDependencies deps ->
  dep_UniqueID d = Some u ->
  truthy_str (dep_MinimumVersion d) = false ->
  map snd mods = pre ++ m :: post ->
  Forall (fun m' => manifest_of u m' = None) pre ->
  is_Some (manifest_of u m) ->
  answers_arrays api ->
  exists rules w',
    mapDependencies' api mods deps w = (Ret rules, w') /\
    mkRule (Some (if is_true (dep_isRequired d) then "requires" else "recommends"))
      (mkReference (Some (mod_id m)) (Some "*") (Some u) None None None None None None)
      None None ∈ rules.
Proof.
  intros Hd Hu Hmin Hmods Hpre Hm Harr.
  eexists _, _. split; [apply mapDependencies_eq|].
  apply elem_of_filteredDependencies in Hd as Hd'. destruct Hd' as (u' & Hne & Hu' & _).
  assert (u' = u) as -> by congruence.
  pose proof (local_match_first _ d u pre m post Hu Hne Hmin Hmods Hpre Hm) as Hlocal.
  destruct (catalog_response_array api (map snd mods) deps Harr) as [items Hresp].
  unfold resolution. rewrite Hresp. apply elem_of_app. left.
  unfold locals_of. apply list_elem_of_omap. exists d. split; [done|].
  rewrite Hlocal. simpl. unfold local_rule, rule_kind, version_constraint.
  by rewrite Hmin, Hu.
Qed.


End LocalAndRemote.

Lemma installed_dependency_gets_local_rule_witness :
  exists rules w',
    mapDependencies Semver.coerce Semver.satisfies
      (host [("mod-b", mod_b)] (PostResolves (DataArray [])))
      [("mod-b", mod_b)] [requires_B] world0 = (Ret rules, w') /\
    mkRule (Some "requires")
      (mkReference (Some "mod-b") (Some "*") (Some "B") None None None None None None)
      None None ∈ rules.
Proof.
  apply (installed_dependency_gets_local_rule Semver.coerce Semver.satisfies
           (host [("mod-b", mod_b)] (PostResolves (DataArray [])))
           [("mod-b", mod_b)] [requires_B] requires_B "B" [] mod_b []).
  - vm_compute. apply list_elem_of_here.
  - reflexivity.
  - reflexivity.
  - reflexivity.
  - constructor.
  - vm_compute. by eexists.
  - intros url data. discriminate.
Defined.


(** ** The reconciler, manifest by manifest *)

Lemma bind_getManifestField {A B} key (field : option A) (k : option A -> M B) w :
  (x ← getManifestField key field; k x) w
  = k field (mkWorld (w_heap w) (w_trace w ++ field_log field)).
Proof.
  destruct w as [h t]. destruct field; unfold getManifestField; unfold_m; simpl.
  - by rewrite app_nil_r.
  - done.
Qed.

Lemma new_SMAPIManifestClass_eq raw w :
  new_SMAPIManifestClass raw w
  = (Ret (parsed_class raw (w_heap w)),
     mkWorld (parsed_heap raw (w_heap w)) (w_trace w ++ manifest_logs raw)).
Proof.
  unfold new_SMAPIManifestClass.
  rewrite !bind_getManifestField. cbn [w_heap w_trace].
  unfold parsed_class, parsed_location, parsed_heap, manifest_logs.
  destruct (m_Dependencies raw) as [p|].
  - unfold mbind at 1, M_bind at 1. unfold mret at 1, M_ret at 1.
    rewrite bind_getManifestField. cbn [w_heap w_trace]. unfold mret, M_ret.
    repeat rewrite <- app_assoc. reflexivity.
  - unfold mbind at 1, M_bind at 1. unfold new_array. cbn [w_heap w_trace].
    rewrite bind_getManifestField. cbn [w_heap w_trace]. unfold mret, M_ret.
    repeat rewrite <- app_assoc. reflexivity.
Qed.

Section ReconcilerFacts.

Context {mapping : CaseMapping}.

Variable semver_coerce : string -> option string.
Variable semver_satisfies : string -> string -> bool.

Local Abbreviation reconcile_manifest' := (reconcile_manifest semver_coerce semver_satisfies).
Local Abbreviation modToggled' := (modToggled semver_coerce semver_satisfies).
Local Abbreviation batches_for' := (batches_for semver_coerce semver_satisfies).
Local Abbreviation reconcile_events' := (reconcile_events semver_coerce semver_satisfies).

Lemma reconcile_manifest_eq api mods owner raw w :
  reconcile_manifest' api mods owner raw w
  = (Ret tt,
     mkWorld (pushed_heap raw (w_heap w))
       (w_trace w ++ reconcile_events' api mods owner raw (w_heap w))).
Proof.
  unfold reconcile_manifest.
  unfold mbind at 1, M_bind at 1. rewrite new_SMAPIManifestClass_eq.
  unfold reconcile_events, batches_for, mapped_for, declared_of, pushed_heap.
  cbn [parsed_class c_ContentPackFor c_Dependencies].
  destruct (m_ContentPackFor raw) as [cp|].
  - unfold mbind at 1, M_bind at 1. unfold array_push. cbn [w_heap w_trace].
    unfold mbind at 1, M_bind at 1. unfold read_array. cbn [w_heap w_trace].
    unfold mbind at 1, M_bind at 1. rewrite mapDependencies_eq. cbn [w_heap w_trace].
    destruct (resolution _ _ _ _ _) as [|r rules]; unfold_m; cbn [w_heap w_trace map];
      repeat rewrite <- app_assoc; [by rewrite app_nil_r|done].
  - unfold mbind at 1, M_bind at 1. unfold mret at 1, M_ret at 1.
    unfold mbind at 1, M_bind at 1. unfold read_array. cbn [w_heap w_trace].
    unfold mbind at 1, M_bind at 1. rewrite mapDependencies_eq. cbn [w_heap w_trace].
    destruct (resolution _ _ _ _ _) as [|r rules]; unfold_m; cbn [w_heap w_trace map];
      repeat rewrite <- app_assoc; [by rewrite app_nil_r|done].
Qed.

Lemma dispatches_app t1 t2 : dispatches (t1 ++ t2) = dispatches t1 ++ dispatches t2.
Proof. apply omap_app. Qed.

Lemma dispatches_field_log {A} (field : option A) : dispatches (field_log field) = [].
Proof. by destruct field. Qed.

Lemma dispatches_manifest_logs raw : dispatches (manifest_logs raw) = [].
Proof. unfold manifest_logs. by rewrite !dispatches_app, !dispatches_field_log. Qed.

Lemma dispatches_resolution_events api modArray deps :
  dispatches (resolution_events semver_coerce semver_satisfies api modArray deps) = [].
Proof.
  unfold resolution_events, query_events. rewrite dispatches_app.
  assert (forall (resp : ResponseData) (missing : list Dependency),
            dispatches
              match resp, missing with
              | DataOther, _ :: _ => [EvLog "error" "Could not get dependency data from SMAPI"]
              | _, _ => []
              end = []) as ->.
  { intros [items|] [|d l]; done. }
  rewrite app_nil_r.
  destruct (api_getGame api) as [[ | v | e] | ]; try done.
  destruct (String.eqb v ""); [done|]. simpl.
  by destruct (api_post api api_url _).
Qed.

Lemma dispatches_batches batches : dispatches (map EvBatchDispatch batches) = batches.
Proof. induction batches as [|b l IH]; [done|]. unfold dispatches in *. simpl. f_equal. exact IH. Qed.

Lemma dispatches_reconcile_events api mods owner raw heap :
  dispatches (reconcile_events' api mods owner raw heap) = batches_for' api mods owner raw heap.
Proof.
  unfold reconcile_events.
  rewrite !dispatches_app, dispatches_manifest_logs, dispatches_resolution_events.
  apply dispatches_batches.
Qed.

Lemma for_each_reconcile api mods owner raws w :
  exists w',
    for_each (reconcile_manifest' api mods owner) raws w = (Ret tt, w') /\
    w_heap w' = fold_left (fun heap raw => pushed_heap raw heap) raws (w_heap w) /\
    dispatches (w_trace w')
    = dispatches (w_trace w)
      ++ batches_of semver_coerce semver_satisfies api mods owner raws (w_heap w).
Proof.
  revert w. induction raws as [|raw raws IH]; intros w.
  - exists w. simpl. by rewrite app_nil_r.
  - simpl. unfold mbind, M_bind. rewrite reconcile_manifest_eq.
    destruct (IH (mkWorld (pushed_heap raw (w_heap w))
                    (w_trace w ++ reconcile_events' api mods owner raw (w_heap w))))
      as (w' & -> & Hheap & Hd).
    cbn [w_trace w_heap] in *.
    rewrite dispatches_app, dispatches_reconcile_events in Hd.
    exists w'. split_and!; [done|done|]. by rewrite Hd, app_assoc.
Qed.

(** [modToggled] returns normally.  For a Stardew Valley profile and a mod
    of the state, what it dispatches is, manifest after manifest of the mod:
    nothing where the rules resolved for the manifest's dependencies (with
    the content-pack target pushed) are none, and else a batch that removes
    the rules chosen among those the mod had when the call began, followed by
    a batch that adds the resolved rules, both for the toggled mod.  In every
    other case it dispatches nothing. *)
Theorem modToggled_dispatches api profileId modId w :
  exists w',
    modToggled' api profileId modId w = (Ret tt, w') /\
    dispatches (w_trace w')
    = dispatches (w_trace w)
      ++ if bool_decide (profile_gameId <$> entry profileId (st_profiles (api_getState api))
                         = Some GAME_ID)
         then
           match entry modId (default [] (st_mods (api_getState api))) with
           | Some owner =>
               batches_of semver_coerce semver_satisfies api
                 (default [] (st_mods (api_getState api))) owner
                 (map snd (default [] (mod_attr attr_smapiManifests owner))) (w_heap w)
           | None => []
           end
         else [].
Proof.
  unfold modToggled.
  case_bool_decide; simpl.
  2: { exists w. by rewrite app_nil_r. }
  destruct (entry modId _) as [owner|] eqn:Howner.
  2: { exists w. by rewrite app_nil_r. }
  destruct (mod_attr attr_smapiManifests owner) as [[|m l]|] eqn:Hman;
    try (exists w; simpl; by rewrite app_nil_r).
  destruct (for_each_reconcile api (default [] (st_mods (api_getState api))) owner
              (map snd (m :: l)) w) as (w' & Hrun & _ & Hd).
  by exists w'.
Qed.

Lemma pushed_heap_lookup raw heap p items :
  heap !! p = Some items ->
  exists extra,
    pushed_heap raw heap !! p = Some (items ++ extra) /\
    forall contentPackFor,
      m_ContentPackFor raw = Some contentPackFor -> m_Dependencies raw = Some p ->
      extra = [mkDependency (cpf_UniqueID contentPackFor) (VBool true) None].
Proof.
  intros Hp. unfold pushed_heap, parsed_location, parsed_heap.
  assert (fresh (dom heap) <> p) as Hfresh.
  { intros <-. apply (is_fresh (dom heap)). apply elem_of_dom. by eexists. }
  destruct (m_Dependencies raw) as [q|], (m_ContentPackFor raw) as [cp|].
  - destruct (decide (q = p)) as [->|Hq].
    + eexists. rewrite lookup_alter_eq, Hp. split; [done|]. by intros ? [= <-] _.
    + exists []. rewrite lookup_alter_ne by done. rewrite app_nil_r. split; [done|].
      by intros ? _ [= ?].
  - exists []. rewrite app_nil_r. split; [done|]. by intros ? [=].
  - exists []. rewrite lookup_alter_ne, lookup_insert_ne by done. rewrite app_nil_r.
    split; [done|]. by intros ? _ [=].
  - exists []. rewrite lookup_insert_ne by done. rewrite app_nil_r.
    split; [done|]. by intros ? [=].
Qed.

Lemma fold_pushed_heap_lookup raws heap p items :
  heap !! p = Some items ->
  exists extra,
    fold_left (fun heap raw => pushed_heap raw heap) raws heap !! p = Some (items ++ extra) /\
    forall raw contentPackFor,
      raw ∈ raws ->
      m_ContentPackFor raw = Some contentPackFor -> m_Dependencies raw = Some p ->
      mkDependency (cpf_UniqueID contentPackFor) (VBool true) None ∈ extra.
Proof.
  revert heap items. induction raws as [|raw raws IH]; intros heap items Hp.
  - exists []. rewrite app_nil_r. split; [done|]. intros ? ? Hin. by apply elem_of_nil in Hin.
  - destruct (pushed_heap_lookup raw heap p items Hp) as (e1 & H1 & Hraw).
    destruct (IH _ _ H1) as (e2 & H2 & Hrest).
    exists (e1 ++ e2). simpl. rewrite app_assoc. split; [done|].
    intros raw' cp Hin Hcp Hdeps. apply elem_of_app.
    apply elem_of_cons in Hin as [->|Hin].
    + left. rewrite (Hraw cp Hcp Hdeps). by apply list_elem_of_singleton.
    + right. by apply (Hrest raw' cp).
Qed.

(** Every call of [modToggled] appends to the stored [Dependencies] array of
    each content-pack manifest of the toggled mod a dependency on the
    [ContentPackFor] target; a stored array only ever grows. *)
Theorem modToggled_grows_stored_dependencies api profileId modId w owner manifests
    id raw contentPackFor p items :
  profile_gameId <$> entry profileId (st_profiles (api_getState api)) = Some GAME_ID ->
  entry modId (default [] (st_mods (api_getState api))) = Some owner ->
  mod_attr attr_smapiManifests owner = Some manifests ->
  (id, raw) ∈ manifests ->
  m_ContentPackFor raw = Some contentPackFor ->
  m_Dependencies raw = Some p ->
  w_heap w !! p = Some items ->
  exists w' extra,
    modToggled' api profileId modId w = (Ret tt, w') /\
    w_heap w' !! p = Some (items ++ extra) /\
    mkDependency (cpf_UniqueID contentPackFor) (VBool true) None ∈ extra.
Proof.
  intros Hprofile Howner Hman Hin Hcp Hdeps Hp.
  unfold modToggled. rewrite bool_decide_eq_true_2 by done. simpl.
  rewrite Howner, Hman.
  destruct manifests as [|m l]; [by apply elem_of_nil in Hin|].
  destruct (for_each_reconcile api (default [] (st_mods (api_getState api))) owner
              (map snd (m :: l)) w) as (w' & Hrun & Hheap & _).
  destruct (fold_pushed_heap_lookup (map snd (m :: l)) (w_heap w) p items Hp)
    as (extra & Hlookup & Hextra).
  exists w', extra. split; [done|]. rewrite Hheap. split; [done|].
  apply (Hextra raw contentPackFor); [|done|done].
  apply list_elem_of_fmap. by exists (id, raw).
Qed.

End ReconcilerFacts.

Lemma modToggled_grows_stored_dependencies_witness :
  exists w' extra,
    modToggled Semver.coerce Semver.satisfies
      (host (owner_state (Some (mkContentPackFor (Some "B"))) 1%positive None)
         (PostRejects "ECONNREFUSED"))
      "profile-1" "mod-a" (stored_at_1 [recommends_C])
    = (Ret tt, w') /\
    w_heap w' !! 1%positive = Some ([recommends_C] ++ extra) /\
    mkDependency (Some "B") (VBool true) None ∈ extra.
Proof.
  apply (modToggled_grows_stored_dependencies Semver.coerce Semver.satisfies
           (host (owner_state (Some (mkContentPackFor (Some "B"))) 1%positive None)
              (PostRejects "ECONNREFUSED"))
           "profile-1" "mod-a" (stored_at_1 [recommends_C])
           (installed "mod-a" "A" "1.0.0" (Some (mkContentPackFor (Some "B")))
              (Some 1%positive) None)
           [("A", manifest_with "A" "1.0.0" (Some (mkContentPackFor (Some "B")))
                    (Some 1%positive))]
           "A" (manifest_with "A" "1.0.0" (Some (mkContentPackFor (Some "B")))
                  (Some 1%positive))
           (mkContentPackFor (Some "B")) 1%positive [recommends_C]).
  - reflexivity.
  - reflexivity.
  - reflexivity.
  - apply list_elem_of_here.
  - reflexivity.
  - reflexivity.
  - reflexivity.
Defined.

(** ** [getGameVersion] *)

Lemma string_app_empty_r s : s +:+ "" = s.
Proof.
  induction s as [|c s IH]; [done|].
  change (String c (s +:+ "") = String c s). by rewrite IH.
Qed.

Lemma string_app_cons c a b : String c a +:+ b = String c (a +:+ b).
Proof. reflexivity. Qed.

Lemma string_app_assoc a b c : (a +:+ b) +:+ c = a +:+ (b +:+ c).
Proof. induction a as [|x a IH]; [done|]. by rewrite !string_app_cons, IH. Qed.

Lemma split_from_nonempty sep cur s : split_from sep cur s <> [].
Proof.
  revert cur. induction s as [|c s IH]; intros cur; simpl; [done|].
  destruct (Ascii.eqb c sep); [done|apply IH].
Qed.

Lemma concat_cons sep x l :
  l <> [] -> String.concat sep (x :: l) = x +:+ sep +:+ String.concat sep l.
Proof. by destruct l. Qed.

(** Joining the segments of a text gives the text back. *)
Lemma join_split_from sep cur s :
  join (String sep "") (split_from sep cur s) = cur +:+ s.
Proof.
  unfold join. revert cur. induction s as [|c s IH]; intros cur; simpl.
  - by rewrite string_app_empty_r.
  - destruct (Ascii.eqb_spec c sep) as [->|_].
    + rewrite concat_cons by apply split_from_nonempty. by rewrite IH.
    + rewrite IH. by rewrite string_app_assoc.
Qed.

Lemma split_from_app sep cur x s :
  occurs sep x = false -> split_from sep cur (x +:+ s) = split_from sep (cur +:+ x) s.
Proof.
  revert cur. induction x as [|c x IH]; intros cur Hx; simpl.
  - by rewrite string_app_empty_r.
  - simpl in Hx. apply orb_false_iff in Hx as [Hc Hx].
    rewrite Hc. rewrite IH by done. by rewrite string_app_assoc.
Qed.

Lemma occurs_app sep a b : occurs sep (a +:+ b) = occurs sep a || occurs sep b.
Proof. induction a as [|c a IH]; [done|]. simpl. by rewrite IH, orb_assoc. Qed.

(** No segment holds the separator. *)
Lemma split_from_occurs sep cur s :
  occurs sep cur = false -> Forall (fun x => occurs sep x = false) (split_from sep cur s).
Proof.
  revert cur. induction s as [|c s IH]; intros cur Hcur; simpl.
  - by constructor.
  - destruct (Ascii.eqb c sep) eqn:Hc.
    + constructor; [done|]. by apply IH.
    + apply IH. rewrite occurs_app, Hcur. simpl. by rewrite Hc.
Qed.

(** Splitting what was joined gives the segments back. *)
Lemma split_join sep l :
  l <> [] -> Forall (fun x => occurs sep x = false) l ->
  split sep (join (String sep "") l) = l.
Proof.
  unfold split, join. intros Hne Hl.
  induction Hl as [|x l Hx Hl IH]; [done|].
  destruct l as [|y l].
  - simpl. rewrite <- (string_app_empty_r x) at 1.
    rewrite split_from_app by done. done.
  - rewrite concat_cons by done.
    rewrite split_from_app by done. simpl.
    rewrite Ascii.eqb_refl. f_equal. by apply IH.
Qed.

(** Where the game's version is known, [getGameVersion] returns the text
    whose components are the first three of the version: the version itself
    when it has no more than three. *)
Theorem getGameVersion_components api v w :
  api_getGame api = Some (VersionResolves v) -> v <> "" ->
  exists shortenedVersion,
    getGameVersion api w = (Ret shortenedVersion, w) /\
    split "." shortenedVersion = take 3 (split "." v) /\
    (List.length (split "." v) <= 3 -> shortenedVersion = v).
Proof.
  intros Hgame Hne. eexists. split; [|split].
  - unfold getGameVersion. rewrite Hgame. unfold_m. simpl.
    by destruct (String.eqb_spec v "").
  - apply split_join.
    + unfold split. pose proof (split_from_nonempty "." "" v) as Hs.
      by destruct (split_from "." "" v).
    + apply Forall_take. by apply split_from_occurs.
  - intros Hlen. rewrite take_ge by done. apply (join_split_from "." "" v).
Qed.

Lemma getGameVersion_components_witness :
  exists shortenedVersion,
    getGameVersion (host [] (PostRejects "ECONNREFUSED")) world0
    = (Ret shortenedVersion, world0) /\
    split "." shortenedVersion = take 3 (split "." "1.5.6.1") /\
    (List.length (split "." "1.5.6.1") <= 3 -> shortenedVersion = "1.5.6.1").
Proof.
  apply (getGameVersion_components (host [] (PostRejects "ECONNREFUSED")) "1.5.6.1").
  - reflexivity.
  - discriminate.
Defined.

(** [getGameVersion] rejects, and changes nothing, when the host does not
    know the game, when the game gives no version or an empty one, and when
    reading the version fails. *)
Theorem getGameVersion_rejects api w :
  (forall v, api_getGame api = Some (VersionResolves v) -> v = "") ->
  exists e, getGameVersion api w = (Throw e, w).
Proof.
  intros Hv. unfold getGameVersion.
  destruct (api_getGame api) as [[ | v | e] | ]; unfold_m; simpl; eauto.
  rewrite (Hv v eq_refl). simpl. eauto.
Qed.

Lemma getGameVersion_rejects_witness :
  exists e,
    getGameVersion (host_without_game [] (PostRejects "ECONNREFUSED")) world0
    = (Throw e, world0).
Proof.
  apply getGameVersion_rejects. intros v. discriminate.
Defined.

(** ** [fetchModInfo] *)

Lemma mod_identities_eq modsToCheck :
  mod_identities modsToCheck = flat_map identities_of (map snd modsToCheck).
Proof.
  unfold mod_identities.
  assert (forall l acc,
            fold_left
              (fun prev cur =>
                 match mod_attr attr_modData cur with
                 | None | Some [] => prev
                 | Some ids =>
                     prev ++ map (fun m => mkIdentity (VStr (md_id m))
                                             (Some (update_keys_of cur)) (md_version m)) ids
                 end) l acc
            = acc ++ flat_map identities_of l) as H.
  { induction l as [|cur l IH]; intros acc; simpl.
    - by rewrite app_nil_r.
    - rewrite IH. unfold identities_of at 2.
      destruct (mod_attr attr_modData cur) as [[|m ids]|]; simpl;
        by rewrite <- ?app_assoc. }
  apply H.
Qed.

(** [fetchModInfo] never rejects and leaves the arrays of the state alone.
    It posts at most one request; the request lists, mod after mod, one
    identity for each entry of the mod's [modData]. *)
Theorem fetchModInfo_batch api includeMeta modsToCheck w :
  exists answer w',
    fetchModInfo api includeMeta modsToCheck w = (Ret answer, w') /\
    w_heap w' = w_heap w /\
    (posts (w_trace w') = posts (w_trace w) \/
     exists request,
       posts (w_trace w') = posts (w_trace w) ++ [request] /\
       req_mods request
       = flat_map identities_of (map snd (default (getAllMods api) modsToCheck)) /\
       req_includeExtendedMetadata request = Some includeMeta).
Proof.
  unfold fetchModInfo.
  assert ((match modsToCheck with Some m => m | None => getAllMods api end)
          = default (getAllMods api) modsToCheck) as -> by by destruct modsToCheck.
  rewrite <- mod_identities_eq.
  destruct (mod_identities _) as [|i batch].
  { exists (DataArray []), w. split; [done|]. split; [done|]. by left. }
  eexists _, _. split; [apply sendQuery_eq|]. split; [done|]. cbn [w_trace].
  unfold posts, query_events. rewrite omap_app.
  destruct (api_getGame api) as [[ | v | e] | ]; simpl;
    try (left; by rewrite app_nil_r).
  destruct (String.eqb v ""); simpl; [left; by rewrite app_nil_r|].
  right. eexists. split; [by destruct (api_post api api_url _)|]. done.
Qed.

(** ** Strings *)

Lemma string_length_app a b : String.length (a +:+ b) = String.length a + String.length b.
Proof. induction a as [|c a IH]; [done|]. rewrite ?string_app_cons. simpl. by rewrite IH. Qed.

Lemma substring_0_length s : substring 0 (String.length s) s = s.
Proof. induction s as [|c s IH]; [done|]. simpl. by rewrite IH. Qed.

(** A text is its first [n] characters followed by the rest. *)
Lemma substring_0_app s n :
  s = substring 0 n s +:+ substring n (String.length s - n) s.
Proof.
  revert n. induction s as [|c s IH]; intros [|n]; simpl.
  - done.
  - done.
  - by rewrite substring_0_length.
  - rewrite ?string_app_cons. f_equal. apply IH.
Qed.

Lemma substring_app_r a b :
  substring (String.length a) (String.length b) (a +:+ b) = b.
Proof.
  induction a as [|c a IH]; simpl.
  - apply substring_0_length.
  - rewrite ?string_app_cons. exact IH.
Qed.

(** Where [t] stands in [s] at [k], [s] is a text of [k] characters, then
    [t], then a rest. *)
Lemma substring_split s k t :
  substring k (String.length t) s = t -> k <= String.length s ->
  exists a b, s = a +:+ t +:+ b /\ String.length a = k.
Proof.
  revert k t. induction s as [|c s IH]; intros k t Ht Hk.
  - simpl in Hk. assert (k = 0) as -> by lia.
    destruct t; [|done]. by exists "", "".
  - destruct k as [|k].
    + exists "". destruct t as [|c' t].
      * by exists (String c s).
      * simpl in Ht. injection Ht as -> Ht.
        destruct (IH 0 t) as (a & b & Hs & Ha); [by destruct s, t| lia |].
        destruct a; [|done]. exists b. simpl in *. by rewrite Hs.
    + simpl in Ht, Hk. destruct (IH k t Ht) as (a & b & Hs & Ha); [lia|].
      exists (String c a), b. rewrite ?string_app_cons, <- Hs. simpl. by rewrite Ha.
Qed.

Lemma endsWith_app s suffix : endsWith s suffix = true <-> exists a, s = a +:+ suffix.
Proof.
  unfold endsWith. rewrite andb_true_iff, Nat.leb_le, String.eqb_eq. split.
  - intros [Hle Hsub].
    destruct (substring_split s _ suffix Hsub) as (a & b & Hs & Ha); [lia|].
    assert (String.length b = 0) as Hb.
    { apply (f_equal String.length) in Hs. rewrite !string_length_app in Hs. lia. }
    destruct b; [|done]. exists a. by rewrite string_app_empty_r in Hs.
  - intros [a ->]. rewrite string_length_app. split; [lia|].
    replace (String.length a + String.length suffix - String.length suffix)
      with (String.length a) by lia.
    apply substring_app_r.
Qed.

Lemma startsWith_app s p : startsWith s p = true <-> exists r, s = p +:+ r.
Proof.
  unfold startsWith. revert s. induction p as [|c p IH]; intros s; simpl.
  - split; [by exists s|by destruct s].
  - destruct s as [|c' s]; [split; [done|by intros [? ?]]|].
    destruct (ascii_dec c c') as [->|Hc].
    + assert (String.prefix (String c' p) (String c' s) = String.prefix p s) as ->.
      { simpl. by destruct (ascii_dec c' c'). }
      rewrite IH. split; intros [r Hr]; exists r.
      * by rewrite ?string_app_cons, Hr.
      * rewrite ?string_app_cons in Hr. by injection Hr.
    + assert (String.prefix (String c p) (String c' s) = false) as ->.
      { simpl. by destruct (ascii_dec c c'). }
      split; [done|]. intros [r Hr]. rewrite ?string_app_cons in Hr. by injection Hr.
Qed.

(** [s.substr(n)] behind a prefix of [n] characters. *)
Lemma substr_app a b : substr (a +:+ b) (Z.of_nat (String.length a)) = b.
Proof.
  unfold substr. rewrite Nat2Z.id, string_length_app.
  replace (String.length a + String.length b - String.length a)
    with (String.length b) by lia.
  apply substring_app_r.
Qed.

Lemma substr_suffix s n : exists a, s = a +:+ substr s n.
Proof. eexists. apply substring_0_app. Qed.

(** What ends a text cut at its beginning ends the text. *)
Lemma endsWith_substr s n suffix :
  endsWith (substr s n) suffix = true -> endsWith s suffix = true.
Proof.
  rewrite !endsWith_app. intros [a Ha].
  destruct (substr_suffix s n) as [b Hb]. rewrite Ha in Hb.
  exists (b +:+ a). by rewrite string_app_assoc.
Qed.

Lemma indexOf_split s pattern :
  (0 <= indexOf s pattern)%Z ->
  exists a b,
    s = a +:+ pattern +:+ b /\ indexOf s pattern = Z.of_nat (String.length a).
Proof.
  unfold indexOf. destruct (String.index 0 pattern s) as [m|] eqn:E; [|lia].
  intros _. pose proof (index_correct1 _ _ _ _ E) as Hsub.
  destruct (substring_split s m pattern Hsub) as (a & b & Hs & Ha).
  - destruct (le_gt_dec m (String.length s)) as [|Hgt]; [done|].
    destruct pattern as [|c p].
    + pose proof (index_correct2 _ _ _ _ E 0) as H0.
      destruct m; [simpl in Hgt; lia|]. exfalso. apply H0; [lia|lia|by destruct s].
    + exfalso. clear E. revert m Hsub Hgt.
      induction s as [|c' s IH]; intros m Hsub Hgt; [by destruct m|].
      destruct m; [simpl in Hgt; lia|]. simpl in Hsub, Hgt. apply (IH m Hsub). lia.
  - exists a, b. by rewrite Ha.
Qed.

Lemma find_is_Some {A} (f : A -> bool) l :
  is_Some (List.find f l) <-> exists x, x ∈ l /\ f x = true.
Proof.
  split.
  - intros [x Hx]. apply List.find_some in Hx as [Hin Hf].
    exists x. by rewrite list_elem_of_In.
  - intros (x & Hin & Hf).
    destruct (List.find f l) eqn:E; [done|].
    apply list_elem_of_In in Hin. by rewrite (List.find_none _ _ E x Hin) in Hf.
Qed.

Lemma filter_map_all {A B} (p : B -> bool) (g : A -> B) l :
  (forall x, p (g x) = true) -> List.filter p (map g l) = map g l.
Proof.
  intros Hp. induction l as [|x l IH]; [done|]. simpl. by rewrite Hp, IH.
Qed.

(** ** The installers' tests *)

Section InstallerFacts.

Context {mapping : CaseMapping}.

Variable path_sep : ascii.
Variable path_join : string -> string -> string.
Variable path_basename : string -> string.
Variable path_extname : string -> string.

Local Abbreviation PTRN_CONTENT' := (PTRN_CONTENT path_sep).
Local Abbreviation in_content_folder' := (in_content_folder path_sep path_join).
Local Abbreviation testRootFolder' := (testRootFolder path_sep path_join).
Local Abbreviation testSupported' := (testSupported path_sep path_join).
Local Abbreviation installRootFolder' :=
  (installRootFolder path_sep path_join path_basename path_extname).
Local Abbreviation isRootFolderMod' := (isRootFolderMod path_sep).
Local Abbreviation isValidManifest' := (isValidManifest path_sep).

Lemma testRootFolder_content files gameId :
  testRootFolder' files gameId = true ->
  exists file, List.find in_content_folder' files = Some file /\ in_content_folder' file = true.
Proof.
  unfold testRootFolder. rewrite andb_true_iff, bool_decide_eq_true, find_is_Some.
  intros (_ & joined & Hin & Hends).
  apply list_elem_of_fmap in Hin as (file & -> & Hin).
  apply list_elem_of_In, List.filter_In in Hin as [Hin _].
  destruct (List.find in_content_folder' files) as [found|] eqn:E.
  - exists found. split; [done|]. by apply List.find_some in E as [_ ?].
  - pose proof (List.find_none _ _ E file Hin) as Hnone.
    unfold in_content_folder in Hnone. congruence.
Qed.

(** No archive is supported both by the root-folder installer and by the
    installer of SMAPI mods, whatever the game ids are. *)
Theorem installers_exclusive files gameId gameId' :
  testRootFolder path_sep path_join files gameId
  && testSupported path_sep path_join files gameId' = false.
Proof.
  destruct (testRootFolder' files gameId) eqn:E; [|done]. simpl.
  apply testRootFolder_content in E as (file & Hfind & _).
  unfold testSupported. rewrite Hfind.
  rewrite (bool_decide_eq_true_2 (is_Some (Some file))) by done.
  simpl. apply andb_false_r.
Qed.

(** An archive the root-folder test supports is one [installRootFolder]
    does not reject, provided that joining nothing to a folder does not end
    in the [Content] pattern. *)
Theorem testRootFolder_supported_installs files gameId :
  in_content_folder path_sep path_join "" = false ->
  testRootFolder path_sep path_join files gameId = true ->
  exists instructions,
    installRootFolder path_sep path_join path_basename path_extname files
    = Ret instructions.
Proof.
  intros Hempty Hsupported.
  apply testRootFolder_content in Hsupported as (file & Hfind & Hfile).
  unfold installRootFolder. rewrite Hfind.
  destruct file as [|c file]; [congruence|]. simpl. eauto.
Qed.

(** What [installRootFolder] returns are copies of files of the archive,
    none of them a folder entry or a [.txt] file; every destination is the
    source without its first [n] characters, for one [n]. *)
Lemma installRootFolder_instructions files instructions :
  installRootFolder' files = Ret instructions ->
  exists n,
    Forall (fun instr =>
              instr_type instr = "copy" /\
              exists file destination,
                instr_source instr = Some file /\
                instr_destination instr = Some destination /\
                file ∈ files /\
                endsWith file (String path_sep "") = false /\
                path_extname file <> ".txt" /\
                file = substring 0 n file +:+ destination) instructions.
Proof.
  unfold installRootFolder.
  destruct (negb (truthy_str (List.find in_content_folder' files))); [done|].
  intros [= <-].
  set (idx := (indexOf (default "" (List.find in_content_folder' files)) PTRN_CONTENT' + 1)%Z).
  exists (Z.to_nat idx). apply Forall_forall. intros instr Hin.
  apply list_elem_of_fmap in Hin as (file & -> & Hin).
  apply list_elem_of_In, List.filter_In in Hin as [Hin Hkeep].
  apply andb_true_iff in Hkeep as [Hkeep Hext].
  apply andb_true_iff in Hkeep as [Hdir _].
  split; [done|]. exists file, (substr file idx). split_and!; try done.
  - by apply list_elem_of_In.
  - by apply negb_true_iff.
  - apply negb_true_iff in Hext. by apply String.eqb_neq.
  - apply substring_0_app.
Qed.

(** A replacement mod (no manifest in the archive) whose [Content] folder
    lies inside another folder and holds a file is installed as a mod that
    [isRootFolderMod] recognises. *)
Theorem installRootFolder_recognised files contentFile rest :
  List.find (in_content_folder path_sep path_join) files = Some contentFile ->
  (0 <= indexOf contentFile (PTRN_CONTENT path_sep))%Z ->
  contentFile +:+ rest ∈ files ->
  endsWith (contentFile +:+ rest) (String path_sep "") = false ->
  indexOf (contentFile +:+ rest)
    (path_basename
       (substring_to contentFile (indexOf contentFile (PTRN_CONTENT path_sep) + 1)))
  <> (-1)%Z ->
  path_extname (contentFile +:+ rest) <> ".txt" ->
  Forall (fun file => endsWith file MANIFEST_FILE = false) files ->
  exists instructions,
    installRootFolder path_sep path_join path_basename path_extname files
    = Ret instructions /\
    isRootFolderMod path_sep instructions = true.
Proof.
  intros Hfind Hidx Hin Hdir Hroot Hext Hmanifest.
  destruct (indexOf_split _ _ Hidx) as (a & b & Hcontent & Ha).
  assert (contentFile <> "") as Hne.
  { intros ->. by destruct a. }
  unfold installRootFolder. rewrite Hfind, (proj2 (truthy_str_Some _) Hne).
  change (default "" (Some contentFile)) with contentFile.
  cbn [negb]. eexists. split; [reflexivity|].
  unfold isRootFolderMod.
  match goal with
  | |- context [List.filter ?p (map ?g ?l)] =>
      assert (List.filter p (map g l) = map g l) as ->
  end.
  { by apply filter_map_all. }
  match goal with
  | |- context [List.find (destination_is (fun d => endsWith d MANIFEST_FILE)) ?l] =>
      assert (List.find (destination_is (fun d => endsWith d MANIFEST_FILE)) l = None) as ->
  end.
  { match goal with |- List.find ?f ?l = None => destruct (List.find f l) eqn:E end; [|done].
    apply List.find_some in E as [Hi He].
    apply list_elem_of_In, list_elem_of_fmap in Hi as (file & -> & Hi).
    apply list_elem_of_In, List.filter_In in Hi as [Hi _].
    simpl in He. apply endsWith_substr in He.
    rewrite Forall_forall in Hmanifest. apply list_elem_of_In in Hi.
    by rewrite (Hmanifest _ Hi) in He. }
  apply bool_decide_eq_true, find_is_Some.
  exists (mkInstruction "copy" (Some (contentFile +:+ rest))
            (Some (substr (contentFile +:+ rest)
                     (indexOf contentFile PTRN_CONTENT' + 1)))).
  split.
  - apply list_elem_of_fmap. exists (contentFile +:+ rest). split; [done|].
    apply list_elem_of_In, List.filter_In. split; [by apply list_elem_of_In|].
    rewrite Hdir. simpl. apply andb_true_iff. split.
    + apply negb_true_iff, Z.eqb_neq. exact Hroot.
    + apply negb_true_iff, String.eqb_neq. exact Hext.
  - simpl. apply startsWith_app. exists (b +:+ rest).
    rewrite Ha. rewrite Hcontent at 1. unfold PTRN_CONTENT.
    replace ((a +:+ (String path_sep "" +:+ "Content" +:+ String path_sep "") +:+ b) +:+ rest)
      with ((a +:+ String path_sep "")
            +:+ (("Content" +:+ String path_sep "") +:+ (b +:+ rest))).
    2: { rewrite !string_app_assoc. reflexivity. }
    replace (Z.of_nat (String.length a) + 1)%Z
      with (Z.of_nat (String.length (a +:+ String path_sep ""))).
    2: { rewrite string_length_app. simpl. lia. }
    apply substr_app.
Qed.

Lemma split_from_last cur s x :
  last (split_from path_sep cur s) = Some x ->
  cur +:+ s = x \/ exists parent, cur +:+ s = parent +:+ String path_sep "" +:+ x.
Proof.
  revert cur. induction s as [|c s IH]; intros cur; simpl.
  - intros [= <-]. left. apply string_app_empty_r.
  - destruct (Ascii.eqb_spec c path_sep) as [->|_].
    + rewrite last_cons.
      destruct (last (split_from path_sep "" s)) as [y|] eqn:E.
      * intros [= <-]. right. destruct (IH "" E) as [Hs|[parent Hs]].
        -- exists cur. assert (s = y) as -> by exact Hs. reflexivity.
        -- exists (cur +:+ String path_sep "" +:+ parent).
           assert (s = parent +:+ String path_sep "" +:+ y) as -> by exact Hs.
           rewrite !string_app_assoc. reflexivity.
      * apply last_None in E. by apply split_from_nonempty in E.
    + intros Hlast. destruct (IH _ Hlast) as [Hs|[parent Hs]].
      * left. by rewrite <- Hs, string_app_assoc.
      * right. exists parent. by rewrite <- Hs, string_app_assoc.
Qed.

(** A file [isValidManifest] accepts is, in lower case, [manifest.json] or
    a path that ends in the separator and [manifest.json]. *)
Theorem isValidManifest_file_name filePath :
  isValidManifest path_sep filePath = true ->
  toLowerCase filePath = MANIFEST_FILE \/
  exists parent, toLowerCase filePath = parent +:+ String path_sep "" +:+ MANIFEST_FILE.
Proof.
  unfold isValidManifest, split. rewrite andb_true_iff, bool_decide_eq_true.
  intros [Hlast _]. by apply split_from_last in Hlast.
Qed.

End InstallerFacts.

Lemma testRootFolder_supported_installs_witness :
  exists instructions,
    installRootFolder Posix.sep Posix.join Posix.basename Posix.extname replacement_archive
    = Ret instructions.
Proof.
  apply (testRootFolder_supported_installs Posix.sep Posix.join Posix.basename
           Posix.extname replacement_archive GAME_ID).
  - reflexivity.
  - reflexivity.
Defined.

Lemma installRootFolder_recognised_witness :
  exists instructions,
    installRootFolder Posix.sep Posix.join Posix.basename Posix.extname replacement_archive
    = Ret instructions /\
    isRootFolderMod Posix.sep instructions = true.
Proof.
  apply (installRootFolder_recognised Posix.sep Posix.join Posix.basename Posix.extname
           replacement_archive "SomeMod/Content/" "Data.xnb").
  - reflexivity.
  - vm_compute. discriminate.
  - unfold replacement_archive. apply list_elem_of_In. simpl. tauto.
  - reflexivity.
  - vm_compute. discriminate.
  - vm_compute. discriminate.
  - repeat constructor.
Defined.

Lemma isValidManifest_file_name_witness :
  toLowerCase "Mods/Foo/Manifest.JSON" = MANIFEST_FILE \/
  exists parent,
    toLowerCase "Mods/Foo/Manifest.JSON" = parent +:+ String Posix.sep "" +:+ MANIFEST_FILE.
Proof.
  apply (isValidManifest_file_name Posix.sep). reflexivity.
Defined.

(** ** [getBundledMods] *)

(** [getBundledMods] lists the lower-case form of every name of the
    module's array, each form once, however often [installSMAPI] pushed
    it and in whatever case. *)
Theorem getBundledMods_lower_case_once {mapping : CaseMapping} bundled :
  NoDup (getBundledMods bundled) /\
  forall name,
    name ∈ getBundledMods bundled <->
    exists modName, modName ∈ bundled /\ name = toLowerCase modName.
Proof.
  unfold getBundledMods. split; [apply new_Set_NoDup|].
  intros name. rewrite elem_of_new_Set, list_elem_of_fmap.
  split; intros (modName & H1 & H2); by exists modName.
Qed.

(** ** Play time *)

Lemma convertMsToHM_hours ms : (ms / 1000 / 60 / 60 = ms / 3600000)%N.
Proof. rewrite !N.Div0.div_div. reflexivity. Qed.

Lemma convertMsToHM_minutes ms :
  ((if (30 <=? (ms / 1000) mod 60) then ms / 1000 / 60 + 1 else ms / 1000 / 60)
   = (ms + 30000) / 60000)%N.
Proof.
  assert ((ms + 30000) / 60000 = (ms / 1000 + 30) / 60)%N as ->.
  { change 60000%N with (1000 * 60)%N. rewrite <- N.Div0.div_div.
    change 30000%N with (30 * 1000)%N. by rewrite N.div_add. }
  generalize (ms / 1000)%N. intros seconds.
  pose proof (N.div_mod seconds 60 ltac:(done)) as Hs.
  pose proof (N.mod_lt seconds 60 ltac:(done)) as Hlt.
  destruct (N.leb_spec 30 (seconds mod 60)) as [Hge|Hlow].
  - apply (N.div_unique _ _ _ (seconds mod 60 - 30)); lia.
  - apply (N.div_unique _ _ _ (seconds mod 60 + 30)); lia.
Qed.

(** Below [2 ^ 53] milliseconds, [convertMsToHM] shows the whole hours
    played, and the minutes played rounded to the nearest minute and then
    taken modulo 60. *)
Theorem convertMsToHM_rounds_minutes ms :
  (ms < 2 ^ 53)%N ->
  convertMsToHM ms
  = padTo2Digits (ms / 3600000) +:+ ":" +:+ padTo2Digits (((ms + 30000) / 60000) mod 60).
Proof.
  intros _. unfold convertMsToHM. cbv zeta.
  by rewrite convertMsToHM_hours, convertMsToHM_minutes.
Qed.

Lemma convertMsToHM_rounds_minutes_witness :
  convertMsToHM 5400000 = padTo2Digits 1 +:+ ":" +:+ padTo2Digits 30.
Proof.
  apply (convertMsToHM_rounds_minutes 5400000). reflexivity.
Defined.

(** From 59 minutes 30 seconds of an hour on, the minutes shown are [00]
    while the hours shown are still those of the hour begun. *)
Theorem convertMsToHM_wraps ms :
  (ms < 2 ^ 53)%N ->
  (3570 <= (ms / 1000) mod 3600)%N ->
  convertMsToHM ms = padTo2Digits (ms / 3600000) +:+ ":00".
Proof.
  intros _ Hlate. unfold convertMsToHM. cbv zeta.
  rewrite convertMsToHM_hours, convertMsToHM_minutes.
  assert (((ms + 30000) / 60000) mod 60 = 0)%N as ->; [|reflexivity].
  assert ((ms + 30000) / 60000 = (ms / 1000 + 30) / 60)%N as ->.
  { change 60000%N with (1000 * 60)%N. rewrite <- N.Div0.div_div.
    change 30000%N with (30 * 1000)%N. by rewrite N.div_add. }
  revert Hlate. generalize (ms / 1000)%N. intros seconds Hlate.
  pose proof (N.div_mod seconds 3600 ltac:(done)) as Hs.
  pose proof (N.mod_lt seconds 3600 ltac:(done)) as Hlt.
  assert ((seconds + 30) / 60 = 60 * (seconds / 3600 + 1))%N as ->.
  { symmetry. apply (N.div_unique _ _ _ (seconds mod 3600 - 3570)); lia. }
  rewrite N.mul_comm. apply N.Div0.mod_mul.
Qed.

Lemma convertMsToHM_wraps_witness : convertMsToHM 7199999 = padTo2Digits 1 +:+ ":00".
Proof.
  apply (convertMsToHM_wraps 7199999).
  - reflexivity.
  - vm_compute. discriminate.
Defined.

(** ** The backup action *)

(** An id for which [saves[id]] is [undefined] makes [showBackupOption]
    throw, unless a save with a backup stands before it in [ids]. *)
Theorem showBackupOption_unknown_id before id after saves :
  Forall (fun id' =>
            match saves id' with
            | MemberUndefined => False
            | MemberSave save =>
                (details_hasBackup <$> save_details save) <> Some (VBool true)
            | MemberOther => True
            end) before ->
  saves id = MemberUndefined ->
  exists e, showBackupOption (before ++ id :: after) saves = Throw e.
Proof.
  intros Hbefore Hid. unfold showBackupOption. rewrite map_app. simpl. rewrite Hid.
  induction Hbefore as [|id' before Hid' _ IH]; simpl; [eauto|].
  destruct (saves id') as [|save|]; [done| |exact IH].
  destruct (save_details save) as [[hasBackup]|]; simpl in *; [|exact IH].
  destruct hasBackup as [ | |[|]| | | | | ]; simpl; try exact IH. done.
Qed.

Lemma showBackupOption_unknown_id_witness :
  exists e,
    showBackupOption (["a"; "length"] ++ "b" :: []) saves_a = Throw e.
Proof.
  apply showBackupOption_unknown_id.
  - repeat constructor. discriminate.
  - reflexivity.
Defined.

(** ** [getModDependencies]: the kinds of rules it returns *)

Lemma bind_Ret {A B} (m : M A) (k : A -> M B) w b w' :
  (x ← m; k x) w = (Ret b, w') ->
  exists a w1, m w = (Ret a, w1) /\ k a w1 = (Ret b, w').
Proof.
  unfold mbind, M_bind. destruct (m w) as [[a|e] w1]; [|done]. eauto.
Qed.

Lemma mapM_Ret_Forall {A B} (f : A -> M B) (Q : B -> Prop) l w bs w' :
  (forall x w a w', f x w = (Ret a, w') -> Q a) ->
  mapM f l w = (Ret bs, w') -> Forall Q bs.
Proof.
  intros Hf. revert w bs w'. induction l as [|x l IH]; intros w bs w'; simpl.
  - intros [= <- _]. constructor.
  - intros H. apply bind_Ret in H as (a & w1 & Ha & H).
    apply bind_Ret in H as (k & w2 & Hk & H). injection H as <- _.
    constructor; [by eapply Hf|by eapply IH].
Qed.

(** Every rule the first loop collects names the installed mod it found. *)
Lemma check_existing_rules {mapping : CaseMapping} api smapiMods dependencies rules unfulfilled w rules' unfulfilled' w' :
  check_existing api smapiMods dependencies rules unfulfilled w
  = (Ret (rules', unfulfilled'), w') ->
  Forall (fun rule => is_Some (ref_id (rule_reference rule))) rules ->
  Forall (fun rule => is_Some (ref_id (rule_reference rule))) rules'.
Proof.
  revert rules unfulfilled w w'. induction dependencies as [|d l IH];
    intros rules unfulfilled w w'; simpl.
  - by intros [= <- _ _].
  - intros H Hrules. apply bind_Ret in H as ([matchingMod|] & w1 & _ & H).
    + apply IH in H; [done|]. apply Forall_app. split; [done|].
      constructor; [|constructor]. by eexists.
    + by apply IH in H.
Qed.

(** What [getModDependencies] returns never mixes the two kinds of rules:
    either every entry is the rule of an installed mod (the catalog's
    answer could not be read), or no entry is (the rules of the installed
    dependencies are left out). *)
Theorem getModDependencies_local_or_remote {mapping : CaseMapping} api manifest w result w' :
  getModDependencies api manifest w = (Ret result, w') ->
  Forall (fun item => exists rule,
            item = Some rule /\ is_Some (ref_id (rule_reference rule))) result \/
  Forall (fun item => forall rule,
            item = Some rule -> ref_id (rule_reference rule) = None) result.
Proof.
  unfold getModDependencies. intros H.
  apply bind_Ret in H as (contentPackFor & w1 & _ & H).
  apply bind_Ret in H as (declared & w2 & _ & H).
  apply bind_Ret in H as (dependencies & w3 & _ & H).
  destruct (negb (truthy contentPackFor) && bool_decide (dependencies = [])).
  { injection H as <- _. left. constructor. }
  apply bind_Ret in H as (mods & w4 & _ & H).
  apply bind_Ret in H as (smapiMods & w5 & _ & H).
  apply bind_Ret in H as ([rules unfulfilled] & w6 & Hloop & H).
  apply check_existing_rules in Hloop; [|constructor].
  apply bind_Ret in H as (modsToSend & w7 & _ & H).
  unfold try_catch in H.
  match type of H with
  | match ?body w7 with _ => _ end = _ => destruct (body w7) as [[answered|e] w8] eqn:Htry
  end.
  - injection H as <- _. right.
    apply bind_Ret in Htry as (smapiRequest & w9 & _ & Htry).
    apply bind_Ret in Htry as (unfulfilledRules & w10 & Hmap & Htry).
    injection Htry as <- _.
    eapply mapM_Ret_Forall; [|exact Hmap]. simpl.
    intros rule wa a wb Ha. apply bind_Ret in Ha as ([data|] & wc & _ & Ha).
    + injection Ha as <- _. by intros ? [= <-].
    + injection Ha as <- _. done.
  - left. apply bind_Ret in H as (? & w9 & _ & H). injection H as <- _.
    apply Forall_fmap. eapply Forall_impl; [exact Hloop|].
    intros rule Hrule. by exists rule.
Qed.

Lemma getModDependencies_local_or_remote_witness :
  Forall (fun item => exists rule,
            item = Some rule /\ is_Some (ref_id (rule_reference rule))) [@None Rule] \/
  Forall (fun item => forall rule,
            item = Some rule -> ref_id (rule_reference rule) = None) [@None Rule].
Proof.
  apply (getModDependencies_local_or_remote
           (host [("mod-b", mod_b_ids)] (PostResolves (DataArray [])))
           (VObj [("UniqueID", VStr "A");
                  ("Dependencies", VArr [VObj [("UniqueID", VStr "B")];
                                         VObj [("UniqueID", VStr "C")]])])
           world0 [None]
           (snd (getModDependencies
                   (host [("mod-b", mod_b_ids)] (PostResolves (DataArray [])))
                   (VObj [("UniqueID", VStr "A");
                          ("Dependencies", VArr [VObj [("UniqueID", VStr "B")];
                                                 VObj [("UniqueID", VStr "C")]])])
                   world0))).
  vm_compute. reflexivity.
Defined.
